(** * The resumable HTTP read-seeker of core/remotes/docker/httpreadseeker.go

    A shallow embedding of [httpReadSeeker] and of its four methods
    ([Read], [ReadAt], [Seek], [Close]) together with the unexported helper
    [reader].  The transport is external to the file: it is modelled by a
    deterministic environment (an opener that answers by call number and
    offset, connections that answer reads from a finite script) and every
    effect on it (opening, closing, logging) is recorded in a trace. *)

From Stdlib Require Import ZArith String List Bool Lia.
From Stdlib Require Import Strings.Byte.
Import ListNotations.
Open Scope Z_scope.

(** ** Machine integers *)

(** Go's [int64]: two's complement, addition wraps around. *)
Definition min_int64 : Z := - 2 ^ 63.
Definition max_int64 : Z := 2 ^ 63 - 1.

Definition in_int64 (z : Z) : Prop := min_int64 <= z <= max_int64.

Definition wrap64 (z : Z) : Z := (z + 2 ^ 63) mod 2 ^ 64 - 2 ^ 63.

Definition add64 (a b : Z) : Z := wrap64 (a + b).

(** ** Errors *)

(** The error values the file compares against or builds.  [Errorf] is
    [fmt.Errorf] with a trailing [%w] verb: it wraps [wrapped]. *)
Inductive error : Type :=
| EOF
| ErrUnexpectedEOF
| ErrShortBuffer
| ErrUnavailable
| ErrInvalidArgument
| ErrNotImplemented
| ErrOther (msg : string)
| Errorf (format : string) (args : list Z) (wrapped : error).

(** [errors.Is]: the target is found somewhere along the wrapping chain. *)
Fixpoint errors_Is (e target : error) : Prop :=
  e = target \/
  match e with
  | Errorf _ _ e' => errors_Is e' target
  | _ => False
  end.

(** ** The transport *)

(** One answer of a connection to [Read]: the bytes it has ready and the
    error it reports once they are delivered. *)
Definition Response : Type := (list byte * option error)%type.

Inductive ConnId : Type :=
| Opened (call : nat)   (* made by the opener on its [call]-th invocation *)
| Synthetic.            (* io.NopCloser(bytes.NewReader([]byte{})) *)

(** An [io.ReadCloser].  [script] is what is still to come; a connection
    whose script is exhausted answers end-of-stream. *)
Record Conn : Type := mkConn {
  conn_id : ConnId;
  script : list Response;
  close_err : option error
}.

Definition with_script (s : list Response) (c : Conn) : Conn :=
  mkConn (conn_id c) s (close_err c).

(** [c.Read(p)] with [len(p) = plen]: never more than [plen] bytes; when the
    head answer does not fit, the part that fits is delivered without error
    and the rest stays queued. *)
Definition conn_read (c : Conn) (plen : nat) : list byte * option error * Conn :=
  match script c with
  | [] => ([], Some EOF, c)
  | (d, e) :: rest =>
      if (length d <=? plen)%nat
      then (d, e, with_script rest c)
      else (firstn plen d, None, with_script ((skipn plen d, e) :: rest) c)
  end.

Definition empty_reader : Conn := mkConn Synthetic [] None.

Inductive OpenResult : Type :=
| OpenOk (body : list Response) (cerr : option error)
| OpenErr (e : error).

(** The injected [open func(offset int64) (io.ReadCloser, error)].  It is a
    closure and may answer differently each time: its answer is a function
    of how many times it has been called before and of the offset. *)
Definition Opener : Type := nat -> Z -> OpenResult.

Inductive Event : Type :=
| EvOpen (call : nat) (off : Z)
| EvClose (c : ConnId)
| EvLog (msg : string) (e : error).

(** The trace of effects, oldest first. *)
Definition World : Type := list Event.

Definition is_open (ev : Event) : bool :=
  match ev with EvOpen _ _ => true | _ => false end.

Definition count_opens (w : World) : nat := length (filter is_open w).

(** [hrs.open(off)]: one more invocation of the opener. *)
Definition call_open (f : Opener) (off : Z) (w : World) : World * (Conn + error) :=
  let i := count_opens w in
  let w1 := w ++ [EvOpen i off] in
  match f i off with
  | OpenOk body cerr => (w1, inl (mkConn (Opened i) body cerr))
  | OpenErr e => (w1, inr e)
  end.

(** [if err := c.Close(); err != nil { log.L.WithError(err).Error(msg) }] *)
Definition close_logged (msg : string) (c : Conn) (w : World) : World :=
  let w1 := w ++ [EvClose (conn_id c)] in
  match close_err c with
  | Some e => w1 ++ [EvLog msg e]
  | None => w1
  end.

(** ** The reader *)

Definition maxRetry : Z := 3.

Record httpReadSeeker : Type := mkHRS {
  size : Z;
  offset : Z;
  rc : option Conn;
  open : option Opener;
  closed : bool;
  errsWithNoProgress : Z
}.

Definition set_offset (o : Z) (h : httpReadSeeker) : httpReadSeeker :=
  mkHRS (size h) o (rc h) (open h) (closed h) (errsWithNoProgress h).

Definition set_rc (c : option Conn) (h : httpReadSeeker) : httpReadSeeker :=
  mkHRS (size h) (offset h) c (open h) (closed h) (errsWithNoProgress h).

Definition set_closed (b : bool) (h : httpReadSeeker) : httpReadSeeker :=
  mkHRS (size h) (offset h) (rc h) (open h) b (errsWithNoProgress h).

Definition set_errs (n : Z) (h : httpReadSeeker) : httpReadSeeker :=
  mkHRS (size h) (offset h) (rc h) (open h) (closed h) n.

Definition newHTTPReadSeeker (sz : Z) (op : option Opener) : httpReadSeeker :=
  mkHRS sz 0 None op false 0.

(** [if hrs.rc != nil { close-and-log; hrs.rc = nil }] *)
Definition release (msg : string) (h : httpReadSeeker) (w : World)
  : httpReadSeeker * World :=
  match rc h with
  | Some c => (set_rc None h, close_logged msg c w)
  | None => (h, w)
  end.

(** [hrs.reader()].  On success the returned reader is the object [hrs.rc]
    points to. *)
Definition reader (h : httpReadSeeker) (w : World)
  : httpReadSeeker * World * (Conn + error) :=
  match rc h with
  | Some c => (h, w, inl c)
  | None =>
      if (size h =? -1) || (offset h <? size h) then
        match open h with
        | None => (h, w, inr (Errorf "cannot open: %w" [] ErrNotImplemented))
        | Some f =>
            match call_open f (offset h) w with
            | (w1, inr e) =>
                (h, w1, inr (Errorf "httpReadSeeker: failed open: %w" [] e))
            | (w1, inl c) =>
                let w2 :=
                  match rc h with
                  | Some old =>
                      close_logged "httpReadSeeker: failed to close ReadCloser" old w1
                  | None => w1
                  end in
                (set_rc (Some c) h, w2, inl c)
            end
        end
      else (set_rc (Some empty_reader) h, w, inl empty_reader)
  end.

Definition ReadResult : Type := (list byte * option error)%type.

Definition is_nil (e : option error) : bool :=
  match e with None => true | Some _ => false end.

(** [hrs.Read(p)] with [len(p) = plen].  The result carries the bytes
    stored in [p[:n]], so [n] is their number.  [rd] and [hrs.rc] are the
    same object: the connection as it is after the raw read is written
    back to [rc].  [errsWithNoProgress] is a Go [int], taken here at its
    64-bit width. *)
Definition Read (h : httpReadSeeker) (plen : nat) (w : World)
  : httpReadSeeker * World * ReadResult :=
  if closed h then (h, w, ([], Some EOF)) else
  match reader h w with
  | (h1, w1, inr err) => (h1, w1, ([], Some err))
  | (h1, w1, inl rd) =>
      let '(data, err, rd') := conn_read rd plen in
      let n := Z.of_nat (length data) in
      let h2 := set_offset (add64 (offset h1) n) (set_rc (Some rd') h1) in
      let h3 := if (0 <? n) || is_nil err then set_errs 0 h2 else h2 in
      match err with
      | Some ErrUnexpectedEOF =>
          let h4 :=
            if n =? 0 then set_errs (add64 (errsWithNoProgress h3) 1) h3 else h3 in
          if (n =? 0) && (maxRetry <? errsWithNoProgress h4)
          then (h4, w1, (data, err))
          else
            let '(h5, w2) :=
              release "httpReadSeeker: failed to close ReadCloser" h4 w1 in
            match reader h5 w2 with
            | (h6, w3, inl _) => (h6, w3, (data, None))
            | (h6, w3, inr _) => (h6, w3, (data, err))
            end
      | Some EOF =>
          let '(h4, w2) :=
            release "httpReadSeeker: failed to close ReadCloser after io.EOF" h3 w1 in
          (h4, w2, (data, err))
      | _ => (h3, w1, (data, err))
      end
  end.

(** [hrs.Close()] *)
Definition Close (h : httpReadSeeker) (w : World)
  : httpReadSeeker * World * option error :=
  if closed h then (h, w, None) else
  let h1 := set_closed true h in
  match rc h1 with
  | Some c => (h1, w ++ [EvClose (conn_id c)], close_err c)
  | None => (h1, w, None)
  end.

(** [io.ReadAtLeast] of the Go standard library:
    [for n < min && err == nil { nn, err = r.Read(buf[n:]); n += nn }].
    [None] only when the fuel runs out. *)
Fixpoint ReadAtLeast_loop (fuel : nat) (r : Conn) (plen min : nat)
    (buf : list byte) (err : option error)
  : option (list byte * option error * Conn) :=
  if (length buf <? min)%nat && is_nil err then
    match fuel with
    | O => None
    | S fuel' =>
        let '(d, e, r') := conn_read r (plen - length buf) in
        ReadAtLeast_loop fuel' r' plen min (buf ++ d) e
    end
  else Some (buf, err, r).

Definition is_EOF (e : option error) : bool :=
  match e with Some EOF => true | _ => false end.

Definition ReadAtLeast (r : Conn) (plen min : nat)
  : option (list byte * option error * Conn) :=
  if (plen <? min)%nat then Some ([], Some ErrShortBuffer, r) else
  match ReadAtLeast_loop (S (length (script r))) r plen min [] None with
  | None => None
  | Some (buf, err, r') =>
      if (min <=? length buf)%nat then Some (buf, None, r')
      else if (0 <? length buf)%nat && is_EOF err
           then Some (buf, Some ErrUnexpectedEOF, r')
           else Some (buf, err, r')
  end.

(** [io.ReadFull(r, buf)] *)
Definition ReadFull (r : Conn) (plen : nat)
  : option (list byte * option error * Conn) :=
  ReadAtLeast r plen plen.

(** [hrs.ReadAt(p, offset)] with [len(p) = plen].  The deferred close runs
    after [io.ReadFull] has produced the result. *)
Definition ReadAt (h : httpReadSeeker) (plen : nat) (off : Z) (w : World)
  : option (httpReadSeeker * World * ReadResult) :=
  if closed h then
    Some (h, w, ([], Some (Errorf "httpReadSeeker.ReadAt: closed: %w" [] ErrUnavailable)))
  else if off <? 0 then
    Some (h, w, ([], Some (Errorf "httpReadSeeker.ReadAt: negative offset: %w" []
                             ErrInvalidArgument)))
  else if negb (size h =? -1) && (size h <=? off) then
    Some (h, w, ([], Some EOF))
  else
    match open h with
    | None =>
        Some (h, w, ([], Some (Errorf "httpReadSeeker.ReadAt: cannot open: %w" []
                                 ErrNotImplemented)))
    | Some f =>
        match call_open f off w with
        | (w1, inr e) =>
            Some (h, w1,
                  ([], Some (Errorf "httpReadSeeker.ReadAt: failed to open at offset %d: %w"
                               [off] e)))
        | (w1, inl c) =>
            match ReadFull c plen with
            | None => None
            | Some (buf, err, c') =>
                Some (h,
                      close_logged "httpReadSeeker.ReadAt: failed to close ReadCloser" c' w1,
                      (buf, err))
            end
        end
    end.

Definition SeekStart : Z := 0.
Definition SeekCurrent : Z := 1.
Definition SeekEnd : Z := 2.

(** The [switch whence] of [Seek]: the absolute position, or the error the
    switch returns. *)
Definition seek_abs (h : httpReadSeeker) (off whence : Z) : Z + error :=
  if whence =? SeekStart then inl off
  else if whence =? SeekCurrent then inl (add64 (offset h) off)
  else if whence =? SeekEnd then
    if size h =? -1
    then inr (Errorf "Fetcher.Seek: unknown size, cannot seek from end: %w" []
                ErrUnavailable)
    else inl (add64 (size h) off)
  else inr (Errorf "Fetcher.Seek: invalid whence: %w" [] ErrInvalidArgument).

(** [hrs.Seek(offset, whence)] *)
Definition Seek (h : httpReadSeeker) (off whence : Z) (w : World)
  : httpReadSeeker * World * (Z * option error) :=
  if closed h then
    (h, w, (0, Some (Errorf "Fetcher.Seek: closed: %w" [] ErrUnavailable)))
  else
    match seek_abs h off whence with
    | inr e => (h, w, (0, Some e))
    | inl abs =>
        if abs <? 0 then
          (h, w, (0, Some (Errorf "Fetcher.Seek: negative offset: %w" []
                             ErrInvalidArgument)))
        else if negb (abs =? offset h) then
          let '(h1, w1) := release "Fetcher.Seek: failed to close ReadCloser" h w in
          let h2 := set_offset abs h1 in
          (h2, w1, (offset h2, None))
        else (h, w, (offset h, None))
    end.

(** ** Callers *)

(** A caller that drains the reader the way [io.ReadAll] and [io.Copy] do:
    it calls [Read] with a buffer of [plen] bytes, keeps what comes back and
    stops at the first error (end-of-stream included).  [None] only when the
    fuel runs out. *)
Fixpoint read_all (fuel : nat) (h : httpReadSeeker) (plen : nat) (w : World)
    (acc : list byte) : option (httpReadSeeker * World * (list byte * error)) :=
  match fuel with
  | O => None
  | S fuel' =>
      match Read h plen w with
      | (h', w', (d, Some e)) => Some (h', w', (acc ++ d, e))
      | (h', w', (d, None)) => read_all fuel' h' plen w' (acc ++ d)
      end
  end.

(** A caller that issues one [Read] per buffer length of [plens], whatever
    each call returns, and keeps the results in order. *)
Fixpoint read_seq (plens : list nat) (h : httpReadSeeker) (w : World)
  : httpReadSeeker * World * list ReadResult :=
  match plens with
  | [] => (h, w, [])
  | plen :: rest =>
      let '(h1, w1, r) := Read h plen w in
      let '(h2, w2, rs) := read_seq rest h1 w1 in
      (h2, w2, r :: rs)
  end.

(** The number of bytes a run of [Read] calls returned. *)
Definition total_bytes (rs : list ReadResult) : Z :=
  fold_right (fun r acc => Z.of_nat (length (fst r)) + acc) 0 rs.

(** ** Transports *)

(** A script that delivers the given chunks without any error. *)
Definition clean (chunks : list (list byte)) : list Response :=
  map (fun d => (d, None)) chunks.

(** A bound on the number of [Read] calls that empty a clean script. *)
Definition drain_cost (chunks : list (list byte)) : nat :=
  fold_right (fun d acc => S (length d + acc)) 0%nat chunks.

(** Every byte a connection still has to deliver, errors aside. *)
Definition script_data (s : list Response) : list byte := concat (map fst s).

(** A connection that dies at once: no byte, then unexpected end. *)
Definition truncated_body : list Response := [([], Some ErrUnexpectedEOF)].

(** What is left of [content] from [off] on, as one chunk. *)
Definition chunks_from (content : list byte) (off : Z) : list (list byte) :=
  match skipn (Z.to_nat off) content with
  | [] => []
  | d => [d]
  end.

(** A healthy connection serving [content] from [off] on: what is left of
    the blob, then end-of-stream. *)
Definition body_from (content : list byte) (off : Z) : list Response :=
  clean (chunks_from content off).

(** An opener that always succeeds and streams from the requested offset. *)
Definition stream_opener (content : list byte) : Opener :=
  fun _ off => OpenOk (body_from content off) None.

(** An opener whose first [k] connections die at once and whose later
    connections are healthy. *)
Definition flaky_opener (k : nat) (content : list byte) : Opener :=
  fun i off =>
    if (i <? k)%nat then OpenOk truncated_body None
    else OpenOk (body_from content off) None.

(** An opener that serves [first] once and refuses every later call. *)
Definition once_opener (first : list Response) (e : error) : Opener :=
  fun i _ => match i with O => OpenOk first None | S _ => OpenErr e end.

(** An opener whose every connection serves one segment and ends, as a
    server does that answers each request with what it has so far. *)
Definition segment_opener (seg : list byte) : Opener :=
  fun _ _ => OpenOk [(seg, None)] None.

(** ** Predicates used in the statements *)

(** What [Seek] does once the anchor has given the position [abs]. *)
Definition seeks_to (h : httpReadSeeker) (off whence : Z) (w : World) (abs : Z)
  : Prop :=
  (abs < 0 ->
     exists e, Seek h off whence w = (h, w, (0, Some e))
               /\ errors_Is e ErrInvalidArgument)
  /\ (0 <= abs -> abs = offset h -> Seek h off whence w = (h, w, (abs, None)))
  /\ (0 <= abs -> abs <> offset h ->
        Seek h off whence w =
          (set_offset abs (set_rc None h),
           match rc h with
           | Some c => close_logged "Fetcher.Seek: failed to close ReadCloser" c w
           | None => w
           end,
           (abs, None))).

(** The trace only grows: [w'] is [w] followed by later events. *)
Definition extends (w w' : World) : Prop := exists tail, w' = w ++ tail.

(** The invariant of the closed flag as the code keeps it: the connection a
    closed reader still refers to has been closed. *)
Definition released_when_closed (h : httpReadSeeker) (w : World) : Prop :=
  closed h = true -> forall c, rc h = Some c -> In (EvClose (conn_id c)) w.

(** The invariant of the closed flag as the specification words it. *)
Definition cleared_when_closed (h : httpReadSeeker) : Prop :=
  closed h = true -> rc h = None.

(** ** Example readers *)

Definition byte_of (i : nat) : byte :=
  match Byte.of_nat (i mod 256) with Some b => b | None => x00 end.

(** The bytes 0, 1, ..., n-1. *)
Definition ramp (n : nat) : list byte := map byte_of (seq 0 n).

(** A fresh reader over a blob of 100 bytes of known size. *)
Definition ex_new : httpReadSeeker :=
  newHTTPReadSeeker 100 (Some (stream_opener (ramp 100))).

(** The same reader after a first [Read] of 10 bytes: it holds the
    connection the opener made. *)
Definition ex_held : httpReadSeeker := fst (fst (Read ex_new 10 [])).
Definition ex_held_world : World := snd (fst (Read ex_new 10 [])).

(** The same reader once closed. *)
Definition ex_closed : httpReadSeeker := fst (fst (Close ex_held ex_held_world)).

(** A reader of unknown size over a blob of 3 bytes, after a [Read] that
    took them all: the connection it holds has nothing left. *)
Definition ex_short : httpReadSeeker :=
  newHTTPReadSeeker (-1) (Some (stream_opener (ramp 3))).
Definition ex_drained : httpReadSeeker := fst (fst (Read ex_short 10 [])).
Definition ex_drained_world : World := snd (fst (Read ex_short 10 [])).

(** A reader whose first connection dies at once and whose second is
    healthy. *)
Definition ex_flaky : httpReadSeeker :=
  newHTTPReadSeeker (-1) (Some (flaky_opener 1 (ramp 3))).

(** A reader of unknown size over a transport that serves segments, after
    the [Read] that took the first segment. *)
Definition ex_segments : httpReadSeeker :=
  fst (fst (Read (newHTTPReadSeeker (-1) (Some (segment_opener (ramp 2)))) 10 [])).
Definition ex_segments_world : World :=
  snd (fst (Read (newHTTPReadSeeker (-1) (Some (segment_opener (ramp 2)))) 10 [])).

(** The same reader after the [Read] that met the end of that segment. *)
Definition ex_ended : httpReadSeeker :=
  fst (fst (Read ex_segments 10 ex_segments_world)).
Definition ex_ended_world : World :=
  snd (fst (Read ex_segments 10 ex_segments_world)).

(** A reader whose only connection dies at once and whose opener then
    refuses to reconnect, at the point where it holds that connection. *)
Definition ex_refused : httpReadSeeker :=
  fst (fst (reader
              (newHTTPReadSeeker (-1)
                 (Some (once_opener truncated_body (ErrOther "connection refused"))))
              [])).

(** ** Programs of calls *)

(** One call on the reader, as a caller issues it. *)
Inductive Op : Type :=
| OpRead (plen : nat)
| OpReadAt (plen : nat) (off : Z)
| OpSeek (off whence : Z)
| OpClose.

(** The reader and the trace after one call; the value returned to the
    caller is dropped.  [None] only when [ReadAt] runs out of fuel. *)
Definition apply_op (o : Op) (h : httpReadSeeker) (w : World)
  : option (httpReadSeeker * World) :=
  match o with
  | OpRead plen => Some (fst (Read h plen w))
  | OpReadAt plen off =>
      match ReadAt h plen off w with
      | Some r => Some (fst r)
      | None => None
      end
  | OpSeek off whence => Some (fst (Seek h off whence w))
  | OpClose => Some (fst (Close h w))
  end.

(** A program of calls, run in order. *)
Fixpoint run (ops : list Op) (h : httpReadSeeker) (w : World)
  : option (httpReadSeeker * World) :=
  match ops with
  | [] => Some (h, w)
  | o :: rest =>
      match apply_op o h w with
      | Some (h1, w1) => run rest h1 w1
      | None => None
      end
  end.

(** ** Ownership of connections *)

(** The call numbers of the opener's connections that have been closed, one
    entry per close. *)
Definition closes (w : World) : list nat :=
  flat_map (fun ev => match ev with EvClose (Opened i) => [i] | _ => [] end) w.

(** The reader's field refers to the connection made on call [i]. *)
Definition held (h : httpReadSeeker) (i : nat) : Prop :=
  exists c, rc h = Some c /\ conn_id c = Opened i.

(** The opener's call [i], at [off], gave no connection. *)
Definition refused (h : httpReadSeeker) (i : nat) (off : Z) : Prop :=
  exists f e, open h = Some f /\ f i off = OpenErr e.

(** What the reader keeps about the connections it owns: closed and held
    connections come from past calls of the opener; none is closed twice;
    the one an open reader holds is not closed yet and the one a closed
    reader still refers to is; and every connection the opener ever made is
    closed or held. *)
Definition owned (h : httpReadSeeker) (w : World) : Prop :=
  (forall i, In i (closes w) -> (i < count_opens w)%nat)
  /\ (forall i, held h i -> (i < count_opens w)%nat)
  /\ NoDup (closes w)
  /\ (closed h = false -> forall i, held h i -> ~ In i (closes w))
  /\ (closed h = true -> forall i, held h i -> In i (closes w))
  /\ (forall i off, In (EvOpen i off) w ->
        refused h i off \/ In i (closes w) \/ held h i).

(** A connection script that opens with [m] stalls: no byte and an
    unexpected end, [m] times over, before [rest]. *)
Definition stalls (m : nat) (rest : list Response) : list Response :=
  repeat ([], Some ErrUnexpectedEOF) m ++ rest.

(** A reader of known size 3 that holds a connection which delivers the 3
    bytes and then, instead of a clean end, breaks off. *)
Definition ex_cut : httpReadSeeker :=
  mkHRS 3 0
    (Some (mkConn (Opened 0) [(ramp 3, Some ErrUnexpectedEOF)] None))
    (Some (stream_opener (ramp 3))) false 0.

(** A reader that has given up on the connection it holds: four stalls
    counted, and the connection has three more in store. *)
Definition ex_stuck : httpReadSeeker :=
  mkHRS (-1) 0
    (Some (mkConn (Opened 3) (stalls 3 []) None))
    (Some (flaky_opener 7 (ramp 3))) false 4.

(** A program that reads, seeks away from a held connection, reads at
    random, reads again after the seek, closes and goes on calling. *)
Definition ex_program : list Op :=
  [OpRead 10; OpSeek 50 SeekStart; OpReadAt 4 20; OpRead 10;
   OpSeek (-3) SeekEnd; OpRead 2; OpClose; OpRead 1;
   OpSeek 0 SeekStart; OpClose].

Definition ex_program_reader : httpReadSeeker :=
  match run ex_program ex_new [] with Some (h, _) => h | None => ex_new end.

Definition ex_program_world : World :=
  match run ex_program ex_new [] with Some (_, w) => w | None => [] end.

(** The reader between the raw read and the end of [Read]: it holds the
    connection as the raw read left it; flag and opener are untouched. *)
Definition stage_of (h1 : httpReadSeeker) (rd' : Conn) (hx : httpReadSeeker)
  : Prop :=
  rc hx = Some rd' /\ closed hx = closed h1 /\ open hx = open h1.


(** A script that delivers [pre] without error and then [d] together with
    an unexpected end: a body that breaks off. *)
Definition broken (pre : list (list byte)) (d : list byte) : list Response :=
  clean pre ++ [(d, Some ErrUnexpectedEOF)].


(** A reader that has absorbed three stalls and holds the fourth
    connection of an opener whose first five connections stall. *)
Definition ex_worn : httpReadSeeker :=
  mkHRS (-1) 0
    (Some (mkConn (Opened 3) (body_from (ramp 9) 0) None))
    (Some (fun i off => if (i <? 5)%nat then OpenOk (stalls 1 []) None
                        else OpenOk (body_from (ramp 9) off) None))
    false 3.

(** ** Further predicates and example readers *)

(** The scripts of the connections a run of reconnections reads from, in
    order: the one [reader] hands out first, then those of the opener's
    answers. *)
Definition conn_seq (c : Conn) (bodies : nat -> list Response) (j : nat)
  : list Response :=
  match j with
  | O => script c
  | S j' => bodies j'
  end.

(** A connection whose next read stalls: no byte and an unexpected end. *)
Definition stalled (body : list Response) : Prop :=
  exists rest, body = stalls 1 rest.

(** What [Seek] does once the anchor has given the position [abs], with the
    events on the transport written out. *)
Definition seek_outcome (h : httpReadSeeker) (off whence : Z) (w : World)
    (abs : Z) : Prop :=
  (abs < 0 ->
     exists e, Seek h off whence w = (h, w, (0, Some e))
               /\ errors_Is e ErrInvalidArgument)
  /\ (0 <= abs -> abs = offset h -> Seek h off whence w = (h, w, (abs, None)))
  /\ (0 <= abs -> abs <> offset h ->
        Seek h off whence w =
          (set_offset abs (set_rc None h),
           w ++ match rc h with
                | Some c =>
                    EvClose (conn_id c)
                    :: match close_err c with
                       | Some e => [EvLog "Fetcher.Seek: failed to close ReadCloser" e]
                       | None => []
                       end
                | None => []
                end,
           (abs, None))).

(** A reader of unknown size that has read 4 bytes of a blob of 9 and holds
    the connection that delivered them, which now stalls and whose close
    fails.  The opener's next two connections stall as well and the one
    after streams the rest. *)
Definition ex_mid : httpReadSeeker :=
  mkHRS (-1) 4
    (Some (mkConn (Opened 0) (stalls 1 []) (Some (ErrOther "connection reset"))))
    (Some (flaky_opener 3 (ramp 9))) false 0.

(** The same reader over an opener whose connections all stall. *)
Definition ex_mid_dead : httpReadSeeker :=
  mkHRS (-1) 4
    (Some (mkConn (Opened 0) (stalls 1 []) (Some (ErrOther "connection reset"))))
    (Some (flaky_opener 9 (ramp 9))) false 0.

(** The reader [ex_flaky] after the [Read] that absorbed the stall of its
    first connection: one stall counted, the second connection held. *)
Definition ex_absorbed : httpReadSeeker := fst (fst (Read ex_flaky 10 [])).
Definition ex_absorbed_world : World := snd (fst (Read ex_flaky 10 [])).

(** A reader whose opener gives a connection that delivers 2 bytes, then 1
    byte together with an unexpected end, and whose close fails. *)
Definition ex_bad_close : httpReadSeeker :=
  newHTTPReadSeeker (-1)
    (Some (fun _ _ => OpenOk (broken [ramp 2] (ramp 1))
                        (Some (ErrOther "close failed")))).

Arguments add64 : simpl never.
Arguments wrap64 : simpl never.
Arguments maxRetry : simpl never.
Arguments close_logged : simpl never.

(** ** Arithmetic and trace lemmas *)

Lemma wrap64_exact (z : Z) : in_int64 z -> wrap64 z = z.
Proof.
  unfold in_int64, min_int64, max_int64, wrap64. intros H.
  rewrite Z.mod_small; lia.
Qed.

Lemma add64_exact (a b : Z) : in_int64 (a + b) -> add64 a b = a + b.
Proof. apply wrap64_exact. Qed.

Lemma add64_0_r (a : Z) : in_int64 a -> add64 a 0 = a.
Proof. intros H. unfold add64. rewrite Z.add_0_r. now apply wrap64_exact. Qed.

Lemma count_opens_app (w1 w2 : World) :
  count_opens (w1 ++ w2) = (count_opens w1 + count_opens w2)%nat.
Proof. unfold count_opens. now rewrite filter_app, length_app. Qed.

Lemma count_opens_close_logged (msg : string) (c : Conn) (w : World) :
  count_opens (close_logged msg c w) = count_opens w.
Proof.
  unfold close_logged, count_opens. destruct (close_err c);
    repeat rewrite filter_app; repeat rewrite length_app; simpl; lia.
Qed.

(** ** Seek *)

Lemma Seek_at (h : httpReadSeeker) (off whence : Z) (w : World) (abs : Z) :
  closed h = false -> seek_abs h off whence = inl abs ->
  seeks_to h off whence w abs.
Proof.
  intros Hc Ha. unfold seeks_to, Seek. rewrite Hc, Ha.
  repeat split.
  - intros Hn. apply Z.ltb_lt in Hn. rewrite Hn.
    eexists; split; [reflexivity | simpl; auto].
  - intros Hp He. apply Z.ltb_ge in Hp. rewrite Hp.
    subst abs. now rewrite Z.eqb_refl.
  - intros Hp Hne. apply Z.ltb_ge in Hp. rewrite Hp.
    apply Z.eqb_neq in Hne. rewrite Hne. simpl.
    unfold release. destruct h as [sz o [c|] op cl er]; reflexivity.
Qed.

Lemma close_logged_events (msg : string) (c : Conn) (w : World) :
  close_logged msg c w =
    w ++ EvClose (conn_id c)
         :: match close_err c with
            | Some e => [EvLog msg e]
            | None => []
            end.
Proof.
  unfold close_logged. destruct (close_err c); [| reflexivity].
  now rewrite <- app_assoc.
Qed.

Lemma Seek_outcome_at (h : httpReadSeeker) (off whence : Z) (w : World) (abs : Z) :
  closed h = false -> seek_abs h off whence = inl abs ->
  seek_outcome h off whence w abs.
Proof.
  intros Hc Ha. destruct (Seek_at h off whence w abs Hc Ha) as (Hneg & Hsame & Hmove).
  split; [exact Hneg | split; [exact Hsame |]].
  intros Hp Hne. rewrite (Hmove Hp Hne).
  destruct (rc h) as [c|].
  - now rewrite close_logged_events.
  - now rewrite app_nil_r.
Qed.

(** C5: on an open reader [Seek] takes the position from the anchor (start:
    the offset given; current: the current offset plus it; end: the known
    size plus it, in [int64] arithmetic, and Unavailable when the size is
    unknown), rejects an unknown anchor or a negative position with
    InvalidArgument, and returns the position; a seek to the current offset
    changes nothing, on the reader or on the transport, and keeps the
    connection; a seek elsewhere closes the held connection (the close is
    the next event on the transport, followed by the log entry when the
    close fails), drops it from the reader and moves the offset. *)
Theorem Seek_spec (h : httpReadSeeker) (off whence : Z) (w : World) :
  closed h = false ->
  (whence = SeekStart -> seek_outcome h off whence w off)
  /\ (whence = SeekCurrent -> seek_outcome h off whence w (add64 (offset h) off))
  /\ (whence = SeekEnd -> size h <> -1 ->
        seek_outcome h off whence w (add64 (size h) off))
  /\ (whence = SeekEnd -> size h = -1 ->
        exists e, Seek h off whence w = (h, w, (0, Some e))
                  /\ errors_Is e ErrUnavailable)
  /\ (whence <> SeekStart -> whence <> SeekCurrent -> whence <> SeekEnd ->
        exists e, Seek h off whence w = (h, w, (0, Some e))
                  /\ errors_Is e ErrInvalidArgument)
  /\ (in_int64 (offset h + off) -> add64 (offset h) off = offset h + off)
  /\ (in_int64 (size h + off) -> add64 (size h) off = size h + off).
Proof.
  intros Hc.
  split; [| split; [| split; [| split; [| split; [| split]]]]].
  - intros ->. now apply Seek_outcome_at.
  - intros ->. now apply Seek_outcome_at.
  - intros -> Hs. apply Seek_outcome_at; [assumption|].
    unfold seek_abs. simpl. apply Z.eqb_neq in Hs. now rewrite Hs.
  - intros -> Hs. unfold Seek, seek_abs. rewrite Hc, Hs. simpl.
    eexists; split; [reflexivity | simpl; auto].
  - intros H0 H1 H2. unfold Seek, seek_abs. rewrite Hc.
    apply Z.eqb_neq in H0, H1, H2. rewrite H0, H1, H2.
    eexists; split; [reflexivity | simpl; auto].
  - apply add64_exact.
  - apply add64_exact.
Qed.

Lemma Seek_spec_witness :
  Seek ex_held 0 SeekEnd ex_held_world =
    (mkHRS 100 100 None (Some (stream_opener (ramp 100))) false 0,
     [EvOpen 0 0; EvClose (Opened 0)], (100, None))
  /\ Seek ex_mid (-4) SeekCurrent [EvOpen 0 0] =
       (mkHRS (-1) 0 None (Some (flaky_opener 3 (ramp 9))) false 0,
        [EvOpen 0 0; EvClose (Opened 0);
         EvLog "Fetcher.Seek: failed to close ReadCloser" (ErrOther "connection reset")],
        (0, None))
  /\ Seek ex_held 10 SeekStart ex_held_world = (ex_held, ex_held_world, (10, None)).
Proof.
  split; [| split].
  - destruct (Seek_spec ex_held 0 SeekEnd ex_held_world eq_refl)
      as (_ & _ & Hend & _).
    destruct (Hend eq_refl ltac:(discriminate)) as (_ & _ & Hmove).
    apply (Hmove ltac:(discriminate) ltac:(discriminate)).
  - destruct (Seek_spec ex_mid (-4) SeekCurrent [EvOpen 0 0] eq_refl)
      as (_ & Hcur & _).
    destruct (Hcur eq_refl) as (_ & _ & Hmove).
    apply (Hmove ltac:(discriminate) ltac:(discriminate)).
  - destruct (Seek_spec ex_held 10 SeekStart ex_held_world eq_refl)
      as (Hstart & _).
    destruct (Hstart eq_refl) as (_ & Hsame & _).
    apply (Hsame ltac:(discriminate) eq_refl).
Defined.

(** ** Close *)

(** C7: the first [Close] marks the reader closed, closes the held
    connection and returns that connection's close error; on a closed reader
    [Close] changes nothing and returns no error, and [Read] returns zero
    bytes with end-of-stream. *)
Theorem Close_idempotent (h : httpReadSeeker) (w : World) :
  (closed h = false ->
     closed (fst (fst (Close h w))) = true
     /\ (forall c, rc h = Some c ->
           Close h w = (set_closed true h, w ++ [EvClose (conn_id c)], close_err c))
     /\ (rc h = None -> Close h w = (set_closed true h, w, None)))
  /\ (closed h = true ->
        Close h w = (h, w, None)
        /\ forall plen, Read h plen w = (h, w, ([], Some EOF))).
Proof.
  split; intros Hc.
  - unfold Close. rewrite Hc. split; [| split].
    + simpl. now destruct (rc h).
    + intros c Hr. simpl. now rewrite Hr.
    + intros Hr. simpl. now rewrite Hr.
  - unfold Close, Read. rewrite Hc. split; [reflexivity | intros; reflexivity].
Qed.

Lemma Close_idempotent_witness :
  closed ex_closed = true
  /\ Close ex_closed [] = (ex_closed, [], None)
  /\ Read ex_closed 10 [] = (ex_closed, [], ([], Some EOF)).
Proof.
  destruct (Close_idempotent ex_held ex_held_world) as [Hfirst _].
  destruct (Close_idempotent ex_closed []) as [_ Hnext].
  destruct (Hfirst eq_refl) as (Hcl & _).
  destruct (Hnext Hcl) as (H2 & H3).
  split; [exact Hcl | split; [exact H2 | exact (H3 10%nat)]].
Defined.

(** ** ReadAt: validation *)

(** C4: [ReadAt] checks, in this order: a closed reader fails with
    Unavailable whatever the offset; a negative offset fails with
    InvalidArgument; an offset at or past a known size gives end-of-stream
    with zero bytes; a reader without opener fails with NotImplemented.
    None of these touches the reader or the transport. *)
Theorem ReadAt_validation (h : httpReadSeeker) (plen : nat) (off : Z) (w : World) :
  (closed h = true ->
     exists e, ReadAt h plen off w = Some (h, w, ([], Some e))
               /\ errors_Is e ErrUnavailable)
  /\ (closed h = false -> off < 0 ->
        exists e, ReadAt h plen off w = Some (h, w, ([], Some e))
                  /\ errors_Is e ErrInvalidArgument)
  /\ (closed h = false -> 0 <= off -> size h <> -1 -> size h <= off ->
        ReadAt h plen off w = Some (h, w, ([], Some EOF)))
  /\ (closed h = false -> 0 <= off -> (size h = -1 \/ off < size h) ->
        open h = None ->
        exists e, ReadAt h plen off w = Some (h, w, ([], Some e))
                  /\ errors_Is e ErrNotImplemented).
Proof.
  unfold ReadAt. split; [| split; [| split]].
  - intros ->. eexists; split; [reflexivity | simpl; auto].
  - intros -> Hn. apply Z.ltb_lt in Hn. rewrite Hn.
    eexists; split; [reflexivity | simpl; auto].
  - intros -> Hp Hk Hs. apply Z.ltb_ge in Hp. apply Z.eqb_neq in Hk.
    apply Z.leb_le in Hs. now rewrite Hp, Hk, Hs.
  - intros -> Hp Hs Ho. apply Z.ltb_ge in Hp. rewrite Hp, Ho.
    assert (Hg : negb (size h =? -1) && (size h <=? off) = false).
    { destruct Hs as [Hs | Hs].
      - rewrite Hs. reflexivity.
      - apply Z.leb_gt in Hs. rewrite Hs. apply andb_false_r. }
    rewrite Hg. eexists; split; [reflexivity | simpl; auto].
Qed.

Lemma ReadAt_validation_witness :
  (exists e, ReadAt ex_closed 10 (-1) [] = Some (ex_closed, [], ([], Some e))
             /\ errors_Is e ErrUnavailable)
  /\ (exists e, ReadAt ex_held 10 (-1) [] = Some (ex_held, [], ([], Some e))
                /\ errors_Is e ErrInvalidArgument)
  /\ ReadAt ex_held 10 100 [] = Some (ex_held, [], ([], Some EOF))
  /\ (exists e, ReadAt (newHTTPReadSeeker 100 None) 10 5 []
                  = Some (newHTTPReadSeeker 100 None, [], ([], Some e))
                /\ errors_Is e ErrNotImplemented).
Proof.
  split; [| split; [| split]].
  - apply (ReadAt_validation ex_closed 10 (-1) []). reflexivity.
  - apply (ReadAt_validation ex_held 10 (-1) []); [reflexivity | lia].
  - apply (ReadAt_validation ex_held 10 100 []);
      [reflexivity | lia | discriminate | simpl; lia].
  - apply (ReadAt_validation (newHTTPReadSeeker 100 None) 10 5 []);
      [reflexivity | lia | right; simpl; lia | reflexivity].
Defined.

(** ** The trace grows *)

Create HintDb trace.

Lemma extends_refl (w : World) : extends w w.
Proof. exists []. now rewrite app_nil_r. Qed.

Lemma extends_trans (w1 w2 w3 : World) :
  extends w1 w2 -> extends w2 w3 -> extends w1 w3.
Proof. intros [t1 ->] [t2 ->]. exists (t1 ++ t2). now rewrite app_assoc. Qed.

Lemma extends_app (w t : World) : extends w (w ++ t).
Proof. now exists t. Qed.

Lemma extends_close_logged (msg : string) (c : Conn) (w : World) :
  extends w (close_logged msg c w).
Proof.
  unfold close_logged. destruct (close_err c).
  - rewrite <- app_assoc. apply extends_app.
  - apply extends_app.
Qed.

Lemma extends_reader (h h1 : httpReadSeeker) (w w1 : World) (r : Conn + error) :
  reader h w = (h1, w1, r) -> extends w w1.
Proof.
  destruct h as [sz o [c|] [f|] cl er]; unfold reader, call_open; simpl;
    intros H.
  - inversion H; subst; apply extends_refl.
  - inversion H; subst; apply extends_refl.
  - destruct ((sz =? -1) || (o <? sz)); [| inversion H; subst; apply extends_refl].
    destruct (f (count_opens w) o); inversion H; subst; apply extends_app.
  - destruct ((sz =? -1) || (o <? sz)); inversion H; subst; apply extends_refl.
Qed.

#[local] Hint Resolve extends_refl extends_app extends_close_logged
  extends_reader : trace.

Lemma extends_close_then_reader (msg : string) (c : Conn) (h h1 : httpReadSeeker)
    (w w1 : World) (r : Conn + error) :
  reader h (close_logged msg c w) = (h1, w1, r) -> extends w w1.
Proof.
  intros H. eapply extends_trans; eauto with trace.
Qed.

#[local] Hint Resolve extends_close_then_reader : trace.

(** ** The helper [reader] and the release of the held connection *)

Lemma reader_fields (h h1 : httpReadSeeker) (w w1 : World) (r : Conn + error) :
  reader h w = (h1, w1, r) ->
  size h1 = size h /\ offset h1 = offset h /\ open h1 = open h
  /\ closed h1 = closed h /\ errsWithNoProgress h1 = errsWithNoProgress h.
Proof.
  destruct h as [sz o [c|] [f|] cl er]; unfold reader, call_open; simpl;
    intros H.
  - inversion H; subst; auto 10.
  - inversion H; subst; auto 10.
  - destruct ((sz =? -1) || (o <? sz)); [| inversion H; subst; simpl; auto 10].
    destruct (f (count_opens w) o); inversion H; subst; simpl; auto 10.
  - destruct ((sz =? -1) || (o <? sz)); inversion H; subst; simpl; auto 10.
Qed.

Lemma reader_ok_rc (h h1 : httpReadSeeker) (w w1 : World) (c : Conn) :
  reader h w = (h1, w1, inl c) -> rc h1 = Some c.
Proof.
  destruct h as [sz o [c0|] [f|] cl er]; unfold reader, call_open; simpl;
    intros H.
  - inversion H; subst; reflexivity.
  - inversion H; subst; reflexivity.
  - destruct ((sz =? -1) || (o <? sz)); [| inversion H; subst; reflexivity].
    destruct (f (count_opens w) o); inversion H; subst; reflexivity.
  - destruct ((sz =? -1) || (o <? sz)); inversion H; subst; reflexivity.
Qed.

Lemma reader_err_same (h h1 : httpReadSeeker) (w w1 : World) (e : error) :
  reader h w = (h1, w1, inr e) -> h1 = h /\ rc h = None /\ e <> EOF.
Proof.
  destruct h as [sz o [c0|] [f|] cl er]; unfold reader, call_open; simpl;
    intros H; try discriminate.
  - destruct ((sz =? -1) || (o <? sz)); [| discriminate].
    destruct (f (count_opens w) o); inversion H; subst;
      repeat split; discriminate.
  - destruct ((sz =? -1) || (o <? sz)); inversion H; subst;
      repeat split; discriminate.
Qed.

Lemma reader_held (h : httpReadSeeker) (w : World) (c : Conn) :
  rc h = Some c -> reader h w = (h, w, inl c).
Proof. unfold reader. now intros ->. Qed.

Lemma release_fields (msg : string) (h h1 : httpReadSeeker) (w w1 : World) :
  release msg h w = (h1, w1) ->
  size h1 = size h /\ offset h1 = offset h /\ open h1 = open h
  /\ closed h1 = closed h /\ errsWithNoProgress h1 = errsWithNoProgress h
  /\ rc h1 = None.
Proof.
  destruct h as [sz o [c|] op cl er]; unfold release; simpl; intros H;
    inversion H; subst; simpl; auto 10.
Qed.

Lemma Read_closed (h : httpReadSeeker) (plen : nat) (w : World) :
  closed h = true -> Read h plen w = (h, w, ([], Some EOF)).
Proof. unfold Read. now intros ->. Qed.

(** A [Read] that cannot get a reader returns the error of [reader]. *)
Lemma Read_no_reader (h h1 : httpReadSeeker) (plen : nat) (w w1 : World) (e : error) :
  closed h = false -> reader h w = (h1, w1, inr e) ->
  Read h plen w = (h1, w1, ([], Some e)).
Proof. unfold Read. now intros -> ->. Qed.

Lemma wrap64_in_range (z : Z) : in_int64 (wrap64 z).
Proof.
  unfold in_int64, min_int64, max_int64, wrap64.
  pose proof (Z.mod_pos_bound (z + 2 ^ 63) (2 ^ 64) ltac:(lia)). lia.
Qed.

Lemma wrap64_add_l (a b : Z) : wrap64 (wrap64 a + b) = wrap64 (a + b).
Proof.
  unfold wrap64.
  replace ((a + 2 ^ 63) mod 2 ^ 64 - 2 ^ 63 + b + 2 ^ 63)
    with ((a + 2 ^ 63) mod 2 ^ 64 + b) by lia.
  rewrite Zplus_mod_idemp_l. f_equal. f_equal. lia.
Qed.

Lemma conn_read_same (c c' : Conn) (plen : nat) (d : list byte) (e : option error) :
  conn_read c plen = (d, e, c') ->
  conn_id c' = conn_id c /\ close_err c' = close_err c /\ (length d <= plen)%nat.
Proof.
  unfold conn_read. destruct (script c) as [|[d0 e0] rest].
  - intros H; inversion H; subst; simpl. repeat split; lia.
  - destruct (length d0 <=? plen)%nat eqn:Hfit; intros H; inversion H; subst; simpl.
    + apply Nat.leb_le in Hfit. repeat split; lia.
    + repeat split. rewrite length_firstn. lia.
Qed.

(** ** Read: one call on an open reader *)

Ltac read_done :=
  do 3 eexists; split; [reflexivity|]; simpl;
  repeat split; auto; try discriminate; try tauto;
  try (intros [Hx|Hx]; [now elim Hx | discriminate]);
  eauto with trace.

Ltac second_reader :=
  match goal with
  | |- context [reader ?x ?y] =>
      let Hr2 := fresh "Hr2" in
      destruct (reader x y) as [[? ?] [?|?]] eqn:Hr2;
      destruct (reader_fields _ _ _ _ _ Hr2) as (? & ? & ? & ? & ?)
  end.

(** What a [Read] returns and leaves behind once [reader] has produced the
    connection [rd] and the raw read on it has answered [(data, err)]. *)
Lemma Read_open_ok (h h1 : httpReadSeeker) (plen : nat) (w w1 : World)
    (rd rd' : Conn) (data : list byte) (err : option error) :
  closed h = false ->
  reader h w = (h1, w1, inl rd) ->
  conn_read rd plen = (data, err, rd') ->
  exists h' w' err',
    Read h plen w = (h', w', (data, err'))
    /\ offset h' = add64 (offset h) (Z.of_nat (length data))
    /\ closed h' = false /\ size h' = size h /\ open h' = open h
    /\ (data <> [] \/ err = None -> errsWithNoProgress h' = 0)
    /\ (err = Some EOF ->
          err' = Some EOF /\ rc h' = None
          /\ w' = close_logged "httpReadSeeker: failed to close ReadCloser after io.EOF"
                               rd' w1)
    /\ (err' = Some EOF -> err = Some EOF)
    /\ (err = None -> err' = None /\ w' = w1 /\ rc h' = Some rd')
    /\ extends w1 w'.
Proof.
  intros Hc Hr Hcr.
  destruct (reader_fields _ _ _ _ _ Hr) as (Hsz & Hoff & Hop & Hcl & Her).
  unfold Read. rewrite Hc, Hr, Hcr. rewrite <- Hsz, <- Hoff, <- Hop.
  rewrite Hc in Hcl. clear Hr Hcr Hsz Hoff Hop Her Hc.
  destruct h1 as [sz o r op cl er]. simpl in Hcl. subst cl.
  destruct err as [e|]; [| destruct data; read_done].
  destruct data as [|b l]; destruct e; try (simpl; read_done).
  - simpl. destruct (maxRetry <? add64 er 1); simpl; [read_done|].
    second_reader; simpl in *; read_done.
  - cbn [length Z.of_nat Z.eqb Z.ltb Z.compare orb andb]. simpl.
    second_reader; simpl in *; read_done.
Qed.

Lemma Read_offset (h h' : httpReadSeeker) (plen : nat) (w w' : World)
    (data : list byte) (err : option error) :
  in_int64 (offset h) ->
  Read h plen w = (h', w', (data, err)) ->
  offset h' = add64 (offset h) (Z.of_nat (length data)).
Proof.
  intros Hin HR. destruct (closed h) eqn:Hc.
  - rewrite (Read_closed _ _ _ Hc) in HR. inversion HR; subst.
    simpl. now rewrite add64_0_r.
  - destruct (reader h w) as [[h1 w1] [rd|e]] eqn:Hr.
    + destruct (conn_read rd plen) as [[d e] rd'] eqn:Hcr.
      destruct (Read_open_ok _ _ _ _ _ _ _ _ _ Hc Hr Hcr)
        as (h2 & w2 & e2 & HR2 & Ho & _).
      rewrite HR2 in HR. inversion HR; subst. exact Ho.
    + rewrite (Read_no_reader _ _ _ _ _ _ Hc Hr) in HR.
      destruct (reader_err_same _ _ _ _ _ Hr) as (-> & _).
      inversion HR; subst. simpl. now rewrite add64_0_r.
Qed.

Lemma read_seq_offset (plens : list nat) :
  forall (h h' : httpReadSeeker) (w w' : World) (rs : list ReadResult),
    in_int64 (offset h) ->
    read_seq plens h w = (h', w', rs) ->
    offset h' = wrap64 (offset h + total_bytes rs).
Proof.
  induction plens as [|plen rest IH]; intros h h' w w' rs Hin Hs; simpl in Hs.
  - inversion Hs; subst. simpl. rewrite Z.add_0_r. symmetry.
    now apply wrap64_exact.
  - destruct (Read h plen w) as [[h1 w1] [d e]] eqn:HR.
    destruct (read_seq rest h1 w1) as [[h2 w2] rs2] eqn:Hs2.
    inversion Hs; subst.
    pose proof (Read_offset _ _ _ _ _ _ _ Hin HR) as Ho.
    assert (Hin1 : in_int64 (offset h1)) by (rewrite Ho; apply wrap64_in_range).
    rewrite (IH _ _ _ _ _ Hin1 Hs2), Ho. unfold add64. simpl.
    rewrite wrap64_add_l. f_equal. lia.
Qed.

(** C2: a [Read] moves the offset forward by the number of bytes it
    returns ([int64] addition, the plain sum as long as it fits), so a run
    of calls moves it by the sum of what they returned; and when the raw
    read on the connection answers a clean end-of-stream, [Read] closes
    that connection, clears the field and returns end-of-stream. *)
Theorem Read_advances_offset (h : httpReadSeeker) (plen : nat) (w : World) :
  in_int64 (offset h) ->
  (forall h' w' data err,
      Read h plen w = (h', w', (data, err)) ->
      offset h' = add64 (offset h) (Z.of_nat (length data))
      /\ (offset h + Z.of_nat (length data) <= max_int64 ->
            offset h' = offset h + Z.of_nat (length data)))
  /\ (forall plens h' w' rs,
        read_seq plens h w = (h', w', rs) ->
        offset h' = wrap64 (offset h + total_bytes rs))
  /\ (closed h = false ->
      forall h1 w1 rd data rd',
        reader h w = (h1, w1, inl rd) ->
        conn_read rd plen = (data, Some EOF, rd') ->
        exists h' w',
          Read h plen w = (h', w', (data, Some EOF))
          /\ rc h' = None
          /\ w' = close_logged "httpReadSeeker: failed to close ReadCloser after io.EOF"
                               rd' w1
          /\ In (EvClose (conn_id rd)) w').
Proof.
  intros Hin. split; [| split].
  - intros h' w' data err HR.
    pose proof (Read_offset _ _ _ _ _ _ _ Hin HR) as Ho. split; [exact Ho|].
    intros Hfit. rewrite Ho. apply add64_exact.
    unfold in_int64, min_int64, max_int64 in *. lia.
  - intros plens h' w' rs. now apply read_seq_offset.
  - intros Hc h1 w1 rd data rd' Hr Hcr.
    destruct (Read_open_ok _ _ _ _ _ _ _ _ _ Hc Hr Hcr)
      as (h2 & w2 & e2 & HR2 & _ & _ & _ & _ & _ & Heof & _).
    destruct (Heof eq_refl) as (-> & Hrc & Hw).
    exists h2, w2. repeat split; try assumption.
    rewrite Hw. destruct (conn_read_same _ _ _ _ _ Hcr) as (Hid & _).
    unfold close_logged. rewrite Hid.
    destruct (close_err rd'); repeat rewrite in_app_iff; simpl; auto.
Qed.

Lemma Read_advances_offset_witness :
  offset ex_held = 0 + 10
  /\ exists h' w',
       Read ex_drained 10 ex_drained_world = (h', w', ([], Some EOF))
       /\ rc h' = None /\ In (EvClose (Opened 0)) w'.
Proof.
  split.
  - assert (Hin : in_int64 (offset ex_new))
      by (vm_compute; split; discriminate).
    destruct (Read_advances_offset ex_new 10 [] Hin) as (Hone & _).
    destruct (Hone ex_held ex_held_world (ramp 10) None eq_refl) as (_ & Hsum).
    apply Hsum. vm_compute. discriminate.
  - assert (Hin : in_int64 (offset ex_drained))
      by (vm_compute; split; discriminate).
    destruct (Read_advances_offset ex_drained 10 ex_drained_world Hin)
      as (_ & _ & Heof).
    destruct (Heof eq_refl ex_drained ex_drained_world
                (mkConn (Opened 0) [] None) [] (mkConn (Opened 0) [] None)
                eq_refl eq_refl) as (h' & w' & HR & Hrc & _ & Hin').
    exists h', w'. auto.
Defined.

(** ** The loop of io.ReadFull *)

Section ReadFull.

Variable plen : nat.

Lemma ReadAtLeast_loop_full (fuel : nat) :
  forall (r : Conn) (buf : list byte) (err : option error),
    (length buf <= plen)%nat ->
    ((length buf < plen)%nat -> err = None -> (length (script r) < fuel)%nat) ->
    exists buf' err' r',
      ReadAtLeast_loop fuel r plen plen buf err = Some (buf', err', r')
      /\ (length buf' <= plen)%nat
      /\ ((length buf' < plen)%nat -> err' <> None)
      /\ conn_id r' = conn_id r /\ close_err r' = close_err r
      /\ buf' ++ script_data (script r') = buf ++ script_data (script r).
Proof.
  induction fuel as [|fuel IH]; intros r buf err Hlen Hfuel.
  - simpl. destruct ((length buf <? plen)%nat && is_nil err) eqn:Hcond.
    + apply andb_prop in Hcond as [Hlt Hnil]. apply Nat.ltb_lt in Hlt.
      destruct err; [discriminate|]. specialize (Hfuel Hlt eq_refl). lia.
    + exists buf, err, r. repeat split; auto.
      intros Hlt ->. apply Nat.ltb_lt in Hlt. rewrite Hlt in Hcond. discriminate.
  - simpl. destruct ((length buf <? plen)%nat && is_nil err) eqn:Hcond.
    2:{ exists buf, err, r. repeat split; auto.
        intros Hlt ->. apply Nat.ltb_lt in Hlt. rewrite Hlt in Hcond.
        discriminate. }
    apply andb_prop in Hcond as [Hlt Hnil]. apply Nat.ltb_lt in Hlt.
    destruct err; [discriminate|]. specialize (Hfuel Hlt eq_refl).
    unfold conn_read. destruct (script r) as [|[d0 e0] rest] eqn:Hs.
    + destruct (IH r (buf ++ []) (Some EOF)) as (b & e & r' & HL & H1 & H2 & H3 & H4 & H5).
      * rewrite app_nil_r. exact Hlen.
      * discriminate.
      * exists b, e, r'. rewrite HL. repeat split; auto.
        rewrite H5, Hs, app_nil_r. reflexivity.
    + destruct (length d0 <=? plen - length buf)%nat eqn:Hfit.
      * apply Nat.leb_le in Hfit.
        destruct (IH (with_script rest r) (buf ++ d0) e0)
          as (b & e & r' & HL & H1 & H2 & H3 & H4 & H5).
        -- rewrite length_app. lia.
        -- intros _ _. simpl in *. lia.
        -- exists b, e, r'. rewrite HL. repeat split; auto.
           rewrite H5. unfold script_data. simpl. now rewrite app_assoc.
      * apply Nat.leb_gt in Hfit.
        destruct (IH (with_script ((skipn (plen - length buf) d0, e0) :: rest) r)
                     (buf ++ firstn (plen - length buf) d0) None)
          as (b & e & r' & HL & H1 & H2 & H3 & H4 & H5).
        -- rewrite length_app, length_firstn. lia.
        -- rewrite length_app, length_firstn. lia.
        -- exists b, e, r'. rewrite HL. repeat split; auto.
           rewrite H5. unfold script_data. simpl.
           rewrite <- app_assoc. f_equal. rewrite app_assoc.
           now rewrite firstn_skipn.
Qed.

(** [io.ReadFull] always returns, fills the buffer exactly when it reports
    no error, and delivers the head of the connection's stream. *)
Lemma ReadFull_spec (c : Conn) :
  exists buf err c',
    ReadFull c plen = Some (buf, err, c')
    /\ (err = None <-> length buf = plen)
    /\ conn_id c' = conn_id c /\ close_err c' = close_err c
    /\ buf = firstn (length buf) (script_data (script c)).
Proof.
  destruct (ReadAtLeast_loop_full (S (length (script c))) c [] None)
    as (b & e & c' & HL & H1 & H2 & H3 & H4 & H5).
  - simpl. lia.
  - intros _ _. lia.
  - assert (Hpre : b = firstn (length b) (script_data (script c))).
    { simpl in H5. rewrite <- H5, firstn_app, firstn_all, Nat.sub_diag.
      simpl. now rewrite app_nil_r. }
    unfold ReadFull, ReadAtLeast. rewrite Nat.ltb_irrefl, HL.
    destruct (plen <=? length b)%nat eqn:Hfull.
    + apply Nat.leb_le in Hfull. exists b, None, c'.
      repeat split; auto. lia.
    + apply Nat.leb_gt in Hfull. specialize (H2 Hfull).
      destruct ((0 <? length b)%nat && is_EOF e).
      * exists b, (Some ErrUnexpectedEOF), c'. repeat split; auto;
          try discriminate; intros; lia.
      * exists b, e, c'. repeat split; auto; try contradiction; intros; lia.
Qed.

End ReadFull.

(** ** Read at the end of a blob of known size *)

(** C6: when the size is known, the offset has reached or passed it and no
    connection is held, [Read] returns end-of-stream with zero bytes, never
    calls the opener and leaves the reader as it was.  On an open reader
    this goes through [reader], which hands out the synthetic empty stream
    without calling the opener: the only event is the close of that
    stream. *)
Theorem Read_at_end_no_open (h : httpReadSeeker) (plen : nat) (w : World) :
  in_int64 (offset h) ->
  size h <> -1 -> size h <= offset h -> rc h = None ->
  snd (Read h plen w) = ([], Some EOF)
  /\ fst (fst (Read h plen w)) = h
  /\ count_opens (snd (fst (Read h plen w))) = count_opens w
  /\ (closed h = false ->
      reader h w = (set_rc (Some empty_reader) h, w, inl empty_reader)
      /\ Read h plen w = (h, w ++ [EvClose Synthetic], ([], Some EOF))).
Proof.
  intros Hin Hk Hs Hr.
  assert (Hg : (size h =? -1) || (offset h <? size h) = false).
  { apply Z.eqb_neq in Hk. apply Z.ltb_ge in Hs. now rewrite Hk, Hs. }
  assert (Hrd : reader h w = (set_rc (Some empty_reader) h, w, inl empty_reader)).
  { unfold reader. now rewrite Hr, Hg. }
  assert (HR : closed h = false ->
               Read h plen w = (h, w ++ [EvClose Synthetic], ([], Some EOF))).
  { intros Hc. unfold Read. rewrite Hc, Hrd.
    destruct h as [sz o r op cl er]. simpl in *. subst r.
    unfold release, close_logged. simpl. now rewrite add64_0_r. }
  destruct (closed h) eqn:Hc.
  - rewrite (Read_closed _ _ _ Hc). simpl.
    split; [| split; [| split]]; try reflexivity. discriminate.
  - rewrite (HR eq_refl). simpl.
    split; [| split; [| split]]; try reflexivity; auto.
    unfold count_opens. rewrite filter_app, length_app. simpl. lia.
Qed.

(** The scenario of the specification: size 100, an opener that always
    succeeds; [Seek(50, start)] gives 50, a [Read] of 10 bytes returns the
    bytes 50..59 and leaves the offset at 60, [Seek(0, end)] gives 100 and
    the next [Read] returns end-of-stream; the opener ran once. *)
Lemma Read_at_end_no_open_witness :
  exists h1 w1 h2 w2 h3 w3,
    Seek ex_new 50 SeekStart [] = (h1, w1, (50, None))
    /\ Read h1 10 w1 = (h2, w2, (map byte_of (seq 50 10), None))
    /\ offset h2 = 60
    /\ Seek h2 0 SeekEnd w2 = (h3, w3, (100, None))
    /\ Read h3 10 w3 = (h3, w3 ++ [EvClose Synthetic], ([], Some EOF))
    /\ w3 ++ [EvClose Synthetic]
       = [EvOpen 0 50; EvClose (Opened 0); EvClose Synthetic].
Proof.
  do 6 eexists.
  split; [vm_compute; reflexivity|].
  split; [vm_compute; reflexivity|].
  split; [reflexivity|].
  split; [vm_compute; reflexivity|].
  split; [| reflexivity].
  apply Read_at_end_no_open.
  - vm_compute; split; discriminate.
  - discriminate.
  - vm_compute; discriminate.
  - reflexivity.
  - reflexivity.
Defined.

(** ** The closed flag *)

Lemma Read_keeps_open (h h' : httpReadSeeker) (plen : nat) (w w' : World)
    (r : ReadResult) :
  closed h = false -> Read h plen w = (h', w', r) -> closed h' = false.
Proof.
  intros Hc HR. destruct (reader h w) as [[h1 w1] [rd|e]] eqn:Hr.
  - destruct (conn_read rd plen) as [[d e] rd'] eqn:Hcr.
    destruct (Read_open_ok _ _ _ _ _ _ _ _ _ Hc Hr Hcr)
      as (h2 & w2 & e2 & HR2 & _ & Hcl & _).
    rewrite HR2 in HR. now inversion HR; subst.
  - rewrite (Read_no_reader _ _ _ _ _ _ Hc Hr) in HR.
    destruct (reader_err_same _ _ _ _ _ Hr) as (-> & _).
    now inversion HR; subst.
Qed.

Lemma ReadAt_same_reader (h h' : httpReadSeeker) (plen : nat) (off : Z)
    (w w' : World) (r : ReadResult) :
  ReadAt h plen off w = Some (h', w', r) -> h' = h /\ (closed h = true -> w' = w).
Proof.
  unfold ReadAt. destruct (closed h).
  - intros H; inversion H; auto.
  - destruct (off <? 0); [intros H; inversion H; split; [auto | discriminate]|].
    destruct (negb (size h =? -1) && (size h <=? off));
      [intros H; inversion H; split; [auto | discriminate]|].
    destruct (open h) as [f|];
      [| intros H; inversion H; split; [auto | discriminate]].
    destruct (call_open f off w) as [w1 [c|e]];
      [| intros H; inversion H; split; [auto | discriminate]].
    destruct (ReadFull c plen) as [[[buf err] c']|]; [| discriminate].
    intros H; inversion H; split; [auto | discriminate].
Qed.

Lemma Seek_keeps_open (h h' : httpReadSeeker) (off whence : Z) (w w' : World)
    (r : Z * option error) :
  closed h = false -> Seek h off whence w = (h', w', r) -> closed h' = false.
Proof.
  intros Hc. unfold Seek. rewrite Hc.
  destruct (seek_abs h off whence) as [abs|e]; [| intros H; now inversion H; subst].
  destruct (abs <? 0); [intros H; now inversion H; subst|].
  destruct (negb (abs =? offset h)); [| intros H; now inversion H; subst].
  destruct (release "Fetcher.Seek: failed to close ReadCloser" h w) as [h1 w1] eqn:Hrel.
  destruct (release_fields _ _ _ _ _ Hrel) as (_ & _ & _ & Hcl & _).
  intros H; inversion H; subst. simpl. congruence.
Qed.

Lemma Seek_closed (h : httpReadSeeker) (off whence : Z) (w : World) :
  closed h = true ->
  fst (Seek h off whence w) = (h, w).
Proof. unfold Seek. now intros ->. Qed.

(** C8, as the code has it: a fresh reader satisfies, and every operation
    preserves, that the connection a closed reader refers to has been
    closed; the field itself is not cleared by [Close]. *)
Theorem closed_connection_released :
  (forall sz op, released_when_closed (newHTTPReadSeeker sz op) [])
  /\ forall h w,
      released_when_closed h w ->
      (forall plen h' w' r,
          Read h plen w = (h', w', r) -> released_when_closed h' w')
      /\ (forall plen off h' w' r,
            ReadAt h plen off w = Some (h', w', r) -> released_when_closed h' w')
      /\ (forall off whence h' w' r,
            Seek h off whence w = (h', w', r) -> released_when_closed h' w')
      /\ (forall h' w' e,
            Close h w = (h', w', e) ->
            released_when_closed h' w' /\ closed h' = true)
      /\ (closed h = true ->
          (forall plen, fst (Read h plen w) = (h, w))
          /\ (forall plen off, exists r, ReadAt h plen off w = Some (h, w, r))
          /\ (forall off whence, fst (Seek h off whence w) = (h, w))
          /\ fst (Close h w) = (h, w)).
Proof.
  split; [intros sz op Hc; discriminate Hc|].
  intros h w Hinv. destruct (closed h) eqn:Hc.
  - (* a closed reader: nothing moves *)
    split; [| split; [| split; [| split]]];
      [| | | | intros _; unfold Read, ReadAt, Seek, Close; rewrite Hc;
               repeat split; intros; eauto].
    + intros plen h' w' r HR. rewrite (Read_closed _ _ _ Hc) in HR.
      now inversion HR; subst.
    + intros plen off h' w' r HR.
      destruct (ReadAt_same_reader _ _ _ _ _ _ _ HR) as (-> & Hw).
      now rewrite (Hw Hc).
    + intros off whence h' w' r HS.
      pose proof (Seek_closed h off whence w Hc) as Hf. rewrite HS in Hf.
      now inversion Hf; subst.
    + intros h' w' e HC. unfold Close in HC. rewrite Hc in HC.
      now inversion HC; subst.
  - (* an open reader: only [Close] sets the flag, and it closes [rc] *)
    split; [| split; [| split; [| split]]]; [| | | | discriminate].
    + intros plen h' w' r HR Hc'.
      rewrite (Read_keeps_open _ _ _ _ _ _ Hc HR) in Hc'. discriminate.
    + intros plen off h' w' r HR Hc'.
      destruct (ReadAt_same_reader _ _ _ _ _ _ _ HR) as (-> & _). congruence.
    + intros off whence h' w' r HS Hc'.
      rewrite (Seek_keeps_open _ _ _ _ _ _ _ Hc HS) in Hc'. discriminate.
    + intros h' w' e HC. unfold Close in HC. rewrite Hc in HC. simpl in HC.
      destruct (rc h) as [c|] eqn:Hr; inversion HC; subst; split; try reflexivity.
      * intros _ c0 Hr0. simpl in Hr0. rewrite Hr in Hr0. inversion Hr0; subst.
        apply in_or_app. right. now left.
      * intros _ c0 Hr0. simpl in Hr0. rewrite Hr in Hr0. discriminate.
Qed.

Lemma closed_connection_released_witness :
  released_when_closed ex_closed (ex_held_world ++ [EvClose (Opened 0)])
  /\ closed ex_closed = true.
Proof.
  destruct closed_connection_released as (Hnew & Hstep).
  destruct (Hstep ex_new [] (Hnew 100 (Some (stream_opener (ramp 100)))))
    as (Hread & _).
  destruct (Hstep ex_held ex_held_world
              (Hread 10%nat ex_held ex_held_world (ramp 10, None) eq_refl))
    as (_ & _ & _ & Hclose & _).
  exact (Hclose ex_closed (ex_held_world ++ [EvClose (Opened 0)]) None eq_refl).
Defined.

(** C8, as the specification words it, fails: [Close] on a reader that holds a
    connection sets the flag and leaves the field pointing at it. *)
Lemma Close_keeps_field :
  cleared_when_closed ex_held
  /\ closed ex_closed = true
  /\ rc ex_closed = Some (mkConn (Opened 0) [(skipn 10 (ramp 100), None)] None)
  /\ ~ cleared_when_closed (fst (fst (Close ex_held ex_held_world))).
Proof.
  split; [intros H; discriminate H|].
  split; [reflexivity|]. split; [reflexivity|].
  intros H. specialize (H eq_refl). discriminate H.
Qed.

(** ** Read after a clean end-of-stream *)

Lemma Read_EOF_released (h h1 : httpReadSeeker) (plen : nat) (w w1 : World)
    (data : list byte) :
  closed h = false ->
  Read h plen w = (h1, w1, (data, Some EOF)) ->
  rc h1 = None /\ closed h1 = false.
Proof.
  intros Hc HR. destruct (reader h w) as [[h0 w0] [rd|e]] eqn:Hr.
  - destruct (conn_read rd plen) as [[d e] rd'] eqn:Hcr.
    destruct (Read_open_ok _ _ _ _ _ _ _ _ _ Hc Hr Hcr)
      as (h2 & w2 & e2 & HR2 & _ & Hcl & _ & _ & _ & Heof & Hback & _).
    rewrite HR2 in HR. inversion HR; subst.
    destruct (Heof (Hback eq_refl)) as (_ & Hrc & _). auto.
  - rewrite (Read_no_reader _ _ _ _ _ _ Hc Hr) in HR.
    destruct (reader_err_same _ _ _ _ _ Hr) as (_ & _ & Hne).
    inversion HR; subst. now elim Hne.
Qed.

Lemma reader_opens (h : httpReadSeeker) (w : World) (f : Opener) :
  rc h = None -> open h = Some f -> (size h = -1 \/ offset h < size h) ->
  reader h w =
    match f (count_opens w) (offset h) with
    | OpenOk body cerr =>
        let c := mkConn (Opened (count_opens w)) body cerr in
        (set_rc (Some c) h, w ++ [EvOpen (count_opens w) (offset h)], inl c)
    | OpenErr e =>
        (h, w ++ [EvOpen (count_opens w) (offset h)],
         inr (Errorf "httpReadSeeker: failed open: %w" [] e))
    end.
Proof.
  intros Hr Ho Hs.
  assert (Hg : (size h =? -1) || (offset h <? size h) = true).
  { destruct Hs as [Hs | Hs].
    - now rewrite Hs.
    - apply Z.ltb_lt in Hs. rewrite Hs. apply orb_true_r. }
  unfold reader, call_open. rewrite Hr, Hg, Ho.
  now destruct (f (count_opens w) (offset h)).
Qed.

(** C10: a clean end-of-stream is not final.  The [Read] that returned it
    left no connection; while the size is unknown or the offset is below
    it, the next [Read] calls the opener at the current offset and returns
    what the fresh connection delivers: its bytes, no error when the
    connection reports none, and end-of-stream only when the connection
    itself reports it.  When the opener fails the failure is returned. *)
Theorem Read_after_EOF_reopens (h h1 : httpReadSeeker) (plen : nat)
    (w w1 : World) (data : list byte) :
  closed h = false ->
  Read h plen w = (h1, w1, (data, Some EOF)) ->
  rc h1 = None /\ closed h1 = false
  /\ forall f plen',
      open h1 = Some f -> (size h1 = -1 \/ offset h1 < size h1) ->
      (forall body cerr d e c',
          f (count_opens w1) (offset h1) = OpenOk body cerr ->
          conn_read (mkConn (Opened (count_opens w1)) body cerr) plen' = (d, e, c') ->
          exists h2 w2 e',
            Read h1 plen' w1 = (h2, w2, (d, e'))
            /\ extends (w1 ++ [EvOpen (count_opens w1) (offset h1)]) w2
            /\ (e = None -> e' = None /\ rc h2 = Some c')
            /\ (e' = Some EOF -> e = Some EOF))
      /\ (forall err,
            f (count_opens w1) (offset h1) = OpenErr err ->
            Read h1 plen' w1 =
              (h1, w1 ++ [EvOpen (count_opens w1) (offset h1)],
               ([], Some (Errorf "httpReadSeeker: failed open: %w" [] err)))).
Proof.
  intros Hc HR.
  destruct (Read_EOF_released _ _ _ _ _ _ Hc HR) as (Hrc & Hc1).
  split; [exact Hrc | split; [exact Hc1|]].
  intros f plen' Ho Hs.
  pose proof (reader_opens h1 w1 f Hrc Ho Hs) as Hrd.
  split.
  - intros body cerr d e c' Hf Hcr. rewrite Hf in Hrd. simpl in Hrd.
    destruct (Read_open_ok _ _ _ _ _ _ _ _ _ Hc1 Hrd Hcr)
      as (h2 & w2 & e2 & HR2 & _ & _ & _ & _ & _ & _ & Hback & Hnil & Hext).
    exists h2, w2, e2.
    split; [exact HR2 | split; [exact Hext | split; [| exact Hback]]].
    intros He. destruct (Hnil He) as (He2 & _ & Hrc2). auto.
  - intros err Hf. rewrite Hf in Hrd.
    now rewrite (Read_no_reader _ _ _ _ _ _ Hc1 Hrd).
Qed.

Lemma Read_after_EOF_reopens_witness :
  rc ex_ended = None
  /\ exists h2 w2,
       Read ex_ended 10 ex_ended_world = (h2, w2, (ramp 2, None))
       /\ extends (ex_ended_world ++ [EvOpen 1 2]) w2.
Proof.
  destruct (Read_after_EOF_reopens ex_segments ex_ended 10 ex_segments_world
              ex_ended_world [] eq_refl eq_refl) as (Hrc & _ & Hnext).
  split; [exact Hrc|].
  destruct (Hnext (segment_opener (ramp 2)) 10%nat eq_refl (or_introl eq_refl))
    as (Hok & _).
  destruct (Hok [(ramp 2, None)] None (ramp 2) None (mkConn (Opened 1) [] None)
              eq_refl eq_refl) as (h2 & w2 & e' & HR & Hext & Hnil & _).
  destruct (Hnil eq_refl) as (-> & _).
  exists h2, w2. split; [exact HR | exact Hext].
Defined.

(** ** Read: truncation and reconnection *)

Lemma close_logged_same (msg : string) (c c' : Conn) (w : World) :
  conn_id c' = conn_id c -> close_err c' = close_err c ->
  close_logged msg c' w = close_logged msg c w.
Proof. unfold close_logged. now intros -> ->. Qed.

Lemma Read_truncated (h : httpReadSeeker) (plen : nat) (w : World)
    (c c' : Conn) (d : list byte) (f : Opener) :
  closed h = false -> rc h = Some c -> open h = Some f ->
  conn_read c plen = (d, Some ErrUnexpectedEOF, c') ->
  let o' := add64 (offset h) (Z.of_nat (length d)) in
  let er' := match d with [] => add64 (errsWithNoProgress h) 1 | _ => 0 end in
  (size h = -1 \/ o' < size h) ->
  (d <> [] \/ er' <= maxRetry) ->
  let w2 := close_logged "httpReadSeeker: failed to close ReadCloser" c' w in
  Read h plen w =
    match f (count_opens w) o' with
    | OpenOk body cerr =>
        (mkHRS (size h) o' (Some (mkConn (Opened (count_opens w)) body cerr))
           (Some f) false er',
         w2 ++ [EvOpen (count_opens w) o'], (d, None))
    | OpenErr e =>
        (mkHRS (size h) o' None (Some f) false er',
         w2 ++ [EvOpen (count_opens w) o'], (d, Some ErrUnexpectedEOF))
    end.
Proof.
  destruct h as [sz o r op cl er]. simpl. intros -> -> -> Hcr Hs Hretry.
  unfold Read. simpl. rewrite Hcr.
  assert (Hg : forall x, (sz =? -1) || (x <? sz) = true <-> (sz = -1 \/ x < sz)).
  { intros x. rewrite orb_true_iff, Z.eqb_eq, Z.ltb_lt. tauto. }
  apply Hg in Hs.
  destruct d as [|b l].
  - simpl. destruct Hretry as [Hd | Hle]; [now elim Hd|].
    apply Z.ltb_ge in Hle. rewrite Hle. simpl.
    unfold reader, call_open. simpl. simpl in Hs. rewrite Hs.
    rewrite count_opens_close_logged.
    now destruct (f (count_opens w) (add64 o 0)).
  - cbn [length Z.of_nat Z.eqb Z.ltb Z.compare orb andb]. simpl.
    unfold reader, call_open. simpl. simpl in Hs. rewrite Hs.
    rewrite count_opens_close_logged.
    now destruct (f (count_opens w) _).
Qed.

Lemma Read_gives_up (h : httpReadSeeker) (plen : nat) (w : World) (c c' : Conn) :
  closed h = false -> rc h = Some c ->
  conn_read c plen = ([], Some ErrUnexpectedEOF, c') ->
  maxRetry < add64 (errsWithNoProgress h) 1 ->
  Read h plen w =
    (mkHRS (size h) (add64 (offset h) 0) (Some c') (open h) false
       (add64 (errsWithNoProgress h) 1),
     w, ([], Some ErrUnexpectedEOF)).
Proof.
  destruct h as [sz o r op cl er]. simpl. intros -> -> Hcr Hgt.
  unfold Read. simpl. rewrite Hcr. simpl.
  apply Z.ltb_lt in Hgt. now rewrite Hgt.
Qed.

Lemma Read_after_reader (h h1 : httpReadSeeker) (plen : nat) (w w1 : World)
    (c : Conn) :
  closed h = false -> reader h w = (h1, w1, inl c) ->
  Read h plen w = Read h1 plen w1.
Proof.
  intros Hc Hr.
  destruct (reader_fields _ _ _ _ _ Hr) as (_ & _ & _ & Hcl & _).
  pose proof (reader_held h1 w1 c (reader_ok_rc _ _ _ _ _ Hr)) as Hr1.
  unfold Read. rewrite Hc, Hcl, Hc, Hr, Hr1. reflexivity.
Qed.

Lemma read_all_after_reader (fuel : nat) (h h1 : httpReadSeeker) (plen : nat)
    (w w1 : World) (c : Conn) (acc : list byte) :
  closed h = false -> reader h w = (h1, w1, inl c) ->
  read_all fuel h plen w acc = read_all fuel h1 plen w1 acc.
Proof.
  intros Hc Hr. destruct fuel; [reflexivity|]. simpl.
  now rewrite (Read_after_reader _ _ _ _ _ _ Hc Hr).
Qed.

Section Drain.

Variable plen : nat.
Hypothesis plen_pos : (0 < plen)%nat.

(** Draining a healthy connection: the caller gets every chunk, then
    end-of-stream, and the connection is closed. *)
Lemma read_all_clean (fuel : nat) :
  forall (chunks : list (list byte)) (h : httpReadSeeker) (w : World)
         (acc : list byte) (c : Conn),
    closed h = false -> rc h = Some c -> script c = clean chunks ->
    (drain_cost chunks < fuel)%nat ->
    exists h',
      read_all fuel h plen w acc =
        Some (h',
              close_logged "httpReadSeeker: failed to close ReadCloser after io.EOF" c w,
              (acc ++ concat chunks, EOF))
      /\ rc h' = None.
Proof.
  induction fuel as [|fuel IH]; intros chunks h w acc c Hc Hr Hs Hfuel; [lia|].
  pose proof (reader_held h w c Hr) as Hrd.
  destruct (conn_read c plen) as [[d e] c'] eqn:Hcr.
  destruct (Read_open_ok _ _ _ _ _ _ _ _ _ Hc Hrd Hcr)
    as (h2 & w2 & e2 & HR & _ & Hcl & _ & _ & _ & Heof & _ & Hnil & _).
  destruct (conn_read_same _ _ _ _ _ Hcr) as (Hid & Hce & _).
  simpl. rewrite HR.
  unfold conn_read in Hcr. rewrite Hs in Hcr.
  destruct chunks as [|d0 rest]; simpl in Hcr.
  - injection Hcr as Hd He Hc'. subst d e c'.
    destruct (Heof eq_refl) as (-> & Hrc & ->).
    exists h2. split; [reflexivity | exact Hrc].
  - destruct (length d0 <=? plen)%nat eqn:Hfit;
      injection Hcr as Hd He Hc'; subst d e c';
      destruct (Hnil eq_refl) as (-> & -> & Hrc).
    + destruct (IH rest h2 w (acc ++ d0) _ Hcl Hrc eq_refl) as (h3 & HA & Hrc3).
      { simpl in Hfuel. lia. }
      exists h3. rewrite HA. split; [| exact Hrc3].
      rewrite (close_logged_same _ _ _ _ Hid Hce). simpl.
      now rewrite app_assoc.
    + apply Nat.leb_gt in Hfit.
      destruct (IH (skipn plen d0 :: rest) h2 w (acc ++ firstn plen d0) _
                  Hcl Hrc eq_refl) as (h3 & HA & Hrc3).
      { simpl in *. rewrite length_skipn. lia. }
      exists h3. rewrite HA. split; [| exact Hrc3].
      rewrite (close_logged_same _ _ _ _ Hid Hce). simpl.
      now rewrite <- app_assoc, (app_assoc (firstn plen d0)), firstn_skipn.
Qed.

End Drain.

Section Retry.

Variables (f : Opener) (plen : nat).

(** One absorbed stall: the held connection answers no byte and an
    unexpected end, the counter is still below the bound and the opener
    answers; the connection is closed and replaced, nothing is returned. *)
Lemma Read_stall_reconnects (h : httpReadSeeker) (w : World) (c : Conn)
    (body : list Response) (cerr : option error) :
  closed h = false -> rc h = Some c -> open h = Some f ->
  stalled (script c) ->
  in_int64 (offset h) -> (size h = -1 \/ offset h < size h) ->
  0 <= errsWithNoProgress h -> errsWithNoProgress h + 1 <= maxRetry ->
  f (count_opens w) (offset h) = OpenOk body cerr ->
  Read h plen w =
    (mkHRS (size h) (offset h) (Some (mkConn (Opened (count_opens w)) body cerr))
       (Some f) false (errsWithNoProgress h + 1),
     close_logged "httpReadSeeker: failed to close ReadCloser" c w
       ++ [EvOpen (count_opens w) (offset h)],
     ([], None)).
Proof.
  intros Hc Hr Ho (rest & Hs) Hin Hsz He0 He1 Hf.
  assert (Hcr : conn_read c plen = ([], Some ErrUnexpectedEOF, with_script rest c)).
  { unfold conn_read. rewrite Hs. reflexivity. }
  assert (Hadd : add64 (errsWithNoProgress h) 1 = errsWithNoProgress h + 1).
  { apply add64_exact. unfold in_int64, min_int64, max_int64, maxRetry in *. lia. }
  pose proof (Read_truncated h plen w c _ [] f Hc Hr Ho Hcr) as HT.
  cbn [length Z.of_nat] in HT. rewrite (add64_0_r _ Hin), Hadd, Hf in HT.
  rewrite HT; [| exact Hsz | right; exact He1].
  now rewrite (close_logged_same _ c (with_script rest c) w eq_refl eq_refl).
Qed.

(** [k] stalls in a row, within the bound: [k] calls of [Read] that return
    nothing and no error, and [k] reconnections at the same offset. *)
Lemma read_all_stalls (k : nat) :
  forall (h : httpReadSeeker) (w : World) (c : Conn)
         (bodies : nat -> list Response) (cerrs : nat -> option error),
    closed h = false -> rc h = Some c -> open h = Some f ->
    in_int64 (offset h) -> (size h = -1 \/ offset h < size h) ->
    0 <= errsWithNoProgress h ->
    errsWithNoProgress h + Z.of_nat k <= maxRetry ->
    (forall j, (j < k)%nat -> stalled (conn_seq c bodies j)) ->
    (forall j, (j < k)%nat ->
               f (count_opens w + j)%nat (offset h) = OpenOk (bodies j) (cerrs j)) ->
    exists h1 w1 ck,
      (forall fuel acc,
          read_all (k + fuel) h plen w acc = read_all fuel h1 plen w1 acc)
      /\ closed h1 = false /\ rc h1 = Some ck
      /\ script ck = conn_seq c bodies k
      /\ size h1 = size h /\ offset h1 = offset h /\ open h1 = Some f
      /\ errsWithNoProgress h1 = errsWithNoProgress h + Z.of_nat k
      /\ count_opens w1 = (count_opens w + k)%nat.
Proof.
  induction k as [|k IH]; intros h w c bodies cerrs Hc Hr Ho Hin Hsz He0 Hek Hst Hans.
  - exists h, w, c. rewrite Nat.add_0_r, Z.add_0_r. auto 10.
  - pose proof (Hans 0%nat ltac:(lia)) as Hf. rewrite Nat.add_0_r in Hf.
    pose proof (Read_stall_reconnects h w c _ _ Hc Hr Ho (Hst 0%nat ltac:(lia))
                  Hin Hsz He0 ltac:(lia) Hf) as HR.
    set (c1 := mkConn (Opened (count_opens w)) (bodies 0%nat) (cerrs 0%nat)) in *.
    set (h1 := mkHRS (size h) (offset h) (Some c1) (Some f) false
                 (errsWithNoProgress h + 1)) in *.
    set (w1 := close_logged "httpReadSeeker: failed to close ReadCloser" c w
               ++ [EvOpen (count_opens w) (offset h)]) in *.
    assert (Hcnt : count_opens w1 = S (count_opens w)).
    { unfold w1. rewrite count_opens_app, count_opens_close_logged.
      unfold count_opens at 2. simpl. lia. }
    destruct (IH h1 w1 c1 (fun j => bodies (S j)) (fun j => cerrs (S j)))
      as (h2 & w2 & ck & Heq & Hc2 & Hr2 & Hs2 & Hsz2 & Ho2 & Hop2 & He2 & Hcnt2);
      try reflexivity; try assumption.
    + simpl. lia.
    + simpl. lia.
    + intros j Hj. specialize (Hst (S j) ltac:(lia)). now destruct j.
    + intros j Hj. rewrite Hcnt. simpl offset.
      replace (S (count_opens w) + j)%nat with (count_opens w + S j)%nat by lia.
      apply Hans. lia.
    + exists h2, w2, ck.
      split; [| split; [exact Hc2 | split; [exact Hr2 | split; [rewrite Hs2; now destruct k |
                split; [exact Hsz2 | split; [exact Ho2 | split; [exact Hop2 |
                split]]]]]]].
      * intros fuel acc. cbn [Nat.add read_all]. rewrite HR, app_nil_r. apply Heq.
      * rewrite He2. simpl errsWithNoProgress. lia.
      * rewrite Hcnt2, Hcnt. lia.
Qed.

End Retry.

(** C1: bounded retry by reconnection.  Take an open reader below the size
    (or of unknown size) and the connection [reader] gives its next [Read]:
    the one it holds, say in the middle of a body, or a fresh one.
    Connections may fail to close, and the reader may have counted stalls
    already.  First: when that connection and the next ones, [k] in all,
    stall (no byte and an unexpected end) with the counter staying within
    [maxRetry], and the one after is healthy, a caller that keeps reading
    gets the whole content of the healthy one and then end-of-stream, the
    opener having been called [k] more times: once per truncation.  With a
    fresh counter that is any [k <= 3].  Second: when the stalls go on past
    what is left of the bound, the [Read] that meets the first stall beyond
    it returns the truncation error, after as many reconnections as the
    bound had left, at most 3.  Third: whenever the reconnection after a
    truncation fails, that [Read] closes the connection, calls the opener
    once and returns the truncation error. *)
Theorem Read_bounded_retry :
  (forall h w h0 w0 c0 f k bodies cerrs chunks plen,
      closed h = false -> open h = Some f ->
      reader h w = (h0, w0, inl c0) ->
      in_int64 (offset h) -> (size h = -1 \/ offset h < size h) ->
      0 <= errsWithNoProgress h ->
      errsWithNoProgress h + Z.of_nat k <= maxRetry ->
      (forall j, (j < k)%nat -> stalled (conn_seq c0 bodies j)) ->
      conn_seq c0 bodies k = clean chunks ->
      (forall j, (j < k)%nat ->
                 f (count_opens w0 + j)%nat (offset h) = OpenOk (bodies j) (cerrs j)) ->
      (0 < plen)%nat ->
      exists h' w',
        read_all (k + S (drain_cost chunks)) h plen w []
        = Some (h', w', (concat chunks, EOF))
        /\ count_opens w' = (count_opens w0 + k)%nat /\ rc h' = None)
  /\ (forall h w h0 w0 c0 f m bodies cerrs plen,
        closed h = false -> open h = Some f ->
        reader h w = (h0, w0, inl c0) ->
        in_int64 (offset h) -> (size h = -1 \/ offset h < size h) ->
        0 <= errsWithNoProgress h < max_int64 ->
        m = Z.to_nat (maxRetry - errsWithNoProgress h) ->
        (forall j, (j <= m)%nat -> stalled (conn_seq c0 bodies j)) ->
        (forall j, (j < m)%nat ->
                   f (count_opens w0 + j)%nat (offset h) = OpenOk (bodies j) (cerrs j)) ->
        exists h' w',
          read_all (S m) h plen w [] = Some (h', w', ([], ErrUnexpectedEOF))
          /\ count_opens w' = (count_opens w0 + m)%nat /\ (m <= 3)%nat)
  /\ (forall h plen w c c' d f e,
        closed h = false -> rc h = Some c -> open h = Some f ->
        conn_read c plen = (d, Some ErrUnexpectedEOF, c') ->
        (size h = -1 \/ add64 (offset h) (Z.of_nat (length d)) < size h) ->
        (d <> [] \/ add64 (errsWithNoProgress h) 1 <= maxRetry) ->
        f (count_opens w) (add64 (offset h) (Z.of_nat (length d))) = OpenErr e ->
        exists h',
          Read h plen w =
            (h',
             w ++ EvClose (conn_id c)
                  :: match close_err c with
                     | Some ce =>
                         [EvLog "httpReadSeeker: failed to close ReadCloser" ce]
                     | None => []
                     end
               ++ [EvOpen (count_opens w) (add64 (offset h) (Z.of_nat (length d)))],
             (d, Some ErrUnexpectedEOF))
          /\ rc h' = None).
Proof.
  split; [| split].
  - intros h w h0 w0 c0 f k bodies cerrs chunks plen
      Hc Ho Hr Hin Hsz He0 Hek Hst Hgood Hans Hp.
    destruct (reader_fields _ _ _ _ _ Hr) as (Hsz0 & Hoff0 & Hop0 & Hcl0 & Her0).
    rewrite (read_all_after_reader _ h h0 plen w w0 c0 [] Hc Hr).
    rewrite <- Hsz0, <- Hoff0 in Hsz. rewrite <- Hoff0 in Hin, Hans.
    rewrite <- Her0 in He0, Hek. rewrite <- Hop0 in Ho. rewrite <- Hcl0 in Hc.
    destruct (read_all_stalls f plen k h0 w0 c0 bodies cerrs Hc
                (reader_ok_rc _ _ _ _ _ Hr) Ho Hin Hsz He0 Hek Hst Hans)
      as (h1 & w1 & ck & Heq & Hc1 & Hr1 & Hs1 & _ & _ & _ & _ & Hcnt).
    rewrite Heq.
    destruct (read_all_clean plen Hp (S (drain_cost chunks)) chunks h1 w1 [] ck
                Hc1 Hr1 (eq_trans Hs1 Hgood) ltac:(lia)) as (h' & HA & Hrc).
    exists h'. eexists. split; [exact HA | split; [| exact Hrc]].
    now rewrite count_opens_close_logged.
  - intros h w h0 w0 c0 f m bodies cerrs plen
      Hc Ho Hr Hin Hsz He0 Hm Hst Hans.
    destruct (reader_fields _ _ _ _ _ Hr) as (Hsz0 & Hoff0 & Hop0 & Hcl0 & Her0).
    rewrite (read_all_after_reader _ h h0 plen w w0 c0 [] Hc Hr).
    rewrite <- Hsz0, <- Hoff0 in Hsz. rewrite <- Hoff0 in Hin, Hans.
    rewrite <- Her0 in He0, Hm. rewrite <- Hop0 in Ho. rewrite <- Hcl0 in Hc.
    unfold maxRetry in Hm.
    assert (Hrun : exists h1 w1 ck,
               (forall fuel acc,
                   read_all (m + fuel) h0 plen w0 acc = read_all fuel h1 plen w1 acc)
               /\ closed h1 = false /\ rc h1 = Some ck
               /\ script ck = conn_seq c0 bodies m
               /\ errsWithNoProgress h1 = errsWithNoProgress h0 + Z.of_nat m
               /\ count_opens w1 = (count_opens w0 + m)%nat).
    { destruct (Z_le_gt_dec (errsWithNoProgress h0) 3) as [Hle | Hgt].
      - assert (Hek : errsWithNoProgress h0 + Z.of_nat m <= maxRetry)
          by (unfold maxRetry; lia).
        destruct (read_all_stalls f plen m h0 w0 c0 bodies cerrs Hc
                    (reader_ok_rc _ _ _ _ _ Hr) Ho Hin Hsz (proj1 He0) Hek
                    (fun j Hj => Hst j (Nat.lt_le_incl _ _ Hj)) Hans)
          as (h1 & w1 & ck & Heq & Hc1 & Hr1 & Hs1 & _ & _ & _ & He1 & Hcnt).
        exists h1, w1, ck. auto 10.
      - assert (Hm0 : m = 0%nat) by lia. rewrite Hm0.
        exists h0, w0, c0. rewrite Nat.add_0_r, Z.add_0_r.
        pose proof (reader_ok_rc _ _ _ _ _ Hr). auto 10. }
    destruct Hrun as (h1 & w1 & ck & Heq & Hc1 & Hr1 & Hs1 & He1 & Hcnt).
    replace (S m) with (m + 1)%nat by lia. rewrite Heq. cbn [read_all].
    destruct (Hst m (Nat.le_refl m)) as (rest & Hrest). rewrite <- Hs1 in Hrest.
    assert (Hcr : conn_read ck plen
                  = ([], Some ErrUnexpectedEOF, with_script rest ck)).
    { unfold conn_read. rewrite Hrest. reflexivity. }
    rewrite (Read_gives_up h1 plen w1 ck _ Hc1 Hr1 Hcr).
    + eexists. exists w1. split; [reflexivity | split; [exact Hcnt | lia]].
    + rewrite He1, add64_exact.
      * unfold maxRetry. lia.
      * unfold in_int64, min_int64, max_int64 in *. lia.
  - intros h plen w c c' d f e Hc Hr Ho Hcr Hs Hretry Hf.
    rewrite (Read_truncated h plen w c c' d f Hc Hr Ho Hcr Hs).
    + destruct (conn_read_same _ _ _ _ _ Hcr) as (Hid & Hce & _).
      rewrite Hf, (close_logged_same _ c c' w Hid Hce), close_logged_events.
      rewrite <- app_assoc. eexists. split; reflexivity.
    + destruct d; [| left; discriminate]. exact Hretry.
Qed.

Lemma Read_bounded_retry_witness :
  (exists h' w',
      read_all 10 (newHTTPReadSeeker (-1) (Some (flaky_opener 3 (ramp 5)))) 2 [] []
      = Some (h', w', (ramp 5, EOF))
      /\ count_opens w' = 4%nat /\ rc h' = None)
  /\ (exists h' w',
        read_all 10 ex_mid 2 [EvOpen 0 0] []
        = Some (h', w', (map byte_of (seq 4 5), EOF))
        /\ count_opens w' = 4%nat /\ rc h' = None
        /\ w' = [EvOpen 0 0;
                 EvClose (Opened 0);
                 EvLog "httpReadSeeker: failed to close ReadCloser"
                   (ErrOther "connection reset");
                 EvOpen 1 4; EvClose (Opened 1); EvOpen 2 4; EvClose (Opened 2);
                 EvOpen 3 4; EvClose (Opened 3)])
  /\ (exists h' w',
        read_all 4 ex_mid_dead 2 [EvOpen 0 0] []
        = Some (h', w', ([], ErrUnexpectedEOF))
        /\ count_opens w' = 4%nat
        /\ w' = [EvOpen 0 0;
                 EvClose (Opened 0);
                 EvLog "httpReadSeeker: failed to close ReadCloser"
                   (ErrOther "connection reset");
                 EvOpen 1 4; EvClose (Opened 1); EvOpen 2 4; EvClose (Opened 2);
                 EvOpen 3 4])
  /\ (exists h',
        Read ex_refused 2 [EvOpen 0 0]
        = (h', [EvOpen 0 0; EvClose (Opened 0); EvOpen 1 0],
           ([], Some ErrUnexpectedEOF))
        /\ rc h' = None).
Proof.
  destruct Read_bounded_retry as (Hfew & Hmany & Hrefused).
  assert (Hin0 : in_int64 0) by (vm_compute; split; discriminate).
  assert (Hin4 : in_int64 4) by (vm_compute; split; discriminate).
  assert (Hst : stalled truncated_body) by (exists []; reflexivity).
  assert (Hfresh : 0 <= 0) by lia.
  assert (Hbound : 0 + Z.of_nat 3 <= maxRetry) by (vm_compute; discriminate).
  assert (Hleft : 0 <= 0 < max_int64) by (vm_compute; split; [discriminate | reflexivity]).
  assert (Hplen : (0 < 2)%nat) by lia.
  split; [| split; [| split]].
  - apply (Hfew (newHTTPReadSeeker (-1) (Some (flaky_opener 3 (ramp 5)))) []
             (set_rc (Some (mkConn (Opened 0) truncated_body None))
                (newHTTPReadSeeker (-1) (Some (flaky_opener 3 (ramp 5)))))
             [EvOpen 0 0] (mkConn (Opened 0) truncated_body None)
             (flaky_opener 3 (ramp 5)) 3%nat
             (fun j => if (j <? 2)%nat then truncated_body else body_from (ramp 5) 0)
             (fun _ => None) [ramp 5] 2%nat
             eq_refl eq_refl eq_refl Hin0 (or_introl eq_refl) Hfresh Hbound).
    + intros j Hj. destruct j as [|[|[|j]]]; first [exact Hst | lia].
    + reflexivity.
    + intros j Hj. destruct j as [|[|[|j]]]; first [reflexivity | lia].
    + exact Hplen.
  - destruct (Hfew ex_mid [EvOpen 0 0] ex_mid [EvOpen 0 0]
                (mkConn (Opened 0) (stalls 1 []) (Some (ErrOther "connection reset")))
                (flaky_opener 3 (ramp 9)) 3%nat
                (fun j => if (j <? 2)%nat then truncated_body else body_from (ramp 9) 4)
                (fun _ => None) [map byte_of (seq 4 5)] 2%nat
                eq_refl eq_refl eq_refl Hin4 (or_introl eq_refl) Hfresh Hbound)
      as (h' & w' & HA & Hcnt & Hrc).
    + intros j Hj. destruct j as [|[|[|j]]]; first [exact Hst | lia].
    + reflexivity.
    + intros j Hj. destruct j as [|[|[|j]]]; first [reflexivity | lia].
    + exact Hplen.
    + exists h', w'.
      change (3 + S (drain_cost [map byte_of (seq 4 5)]))%nat with 10%nat in HA.
      change (concat [map byte_of (seq 4 5)]) with (map byte_of (seq 4 5) ++ []) in HA.
      rewrite app_nil_r in HA.
      split; [exact HA | split; [exact Hcnt | split; [exact Hrc |]]].
      assert (Hrun : option_map (fun r => snd (fst r))
                       (read_all 10 ex_mid 2 [EvOpen 0 0] [])
                     = Some [EvOpen 0 0;
                             EvClose (Opened 0);
                             EvLog "httpReadSeeker: failed to close ReadCloser"
                               (ErrOther "connection reset");
                             EvOpen 1 4; EvClose (Opened 1); EvOpen 2 4;
                             EvClose (Opened 2); EvOpen 3 4; EvClose (Opened 3)])
        by (vm_compute; reflexivity).
      rewrite HA in Hrun. simpl in Hrun. now injection Hrun.
  - destruct (Hmany ex_mid_dead [EvOpen 0 0] ex_mid_dead [EvOpen 0 0]
                (mkConn (Opened 0) (stalls 1 []) (Some (ErrOther "connection reset")))
                (flaky_opener 9 (ramp 9)) 3%nat
                (fun _ => truncated_body) (fun _ => None) 2%nat
                eq_refl eq_refl eq_refl Hin4 (or_introl eq_refl) Hleft eq_refl)
      as (h' & w' & HA & Hcnt & _).
    + intros j Hj. destruct j as [|j]; exact Hst.
    + intros j Hj. destruct j as [|[|[|j]]]; first [reflexivity | lia].
    + exists h', w'.
      split; [exact HA | split; [exact Hcnt |]].
      assert (Hrun : option_map (fun r => snd (fst r))
                       (read_all 4 ex_mid_dead 2 [EvOpen 0 0] [])
                     = Some [EvOpen 0 0;
                             EvClose (Opened 0);
                             EvLog "httpReadSeeker: failed to close ReadCloser"
                               (ErrOther "connection reset");
                             EvOpen 1 4; EvClose (Opened 1); EvOpen 2 4;
                             EvClose (Opened 2); EvOpen 3 4])
        by (vm_compute; reflexivity).
      rewrite HA in Hrun. simpl in Hrun. now injection Hrun.
  - apply (Hrefused ex_refused 2%nat [EvOpen 0 0]
             (mkConn (Opened 0) truncated_body None)
             (mkConn (Opened 0) [] None) []
             (once_opener truncated_body (ErrOther "connection refused"))
             (ErrOther "connection refused"));
      try reflexivity.
    + left; reflexivity.
    + right. vm_compute. discriminate.
Defined.

(** * Further properties of the reader *)

(** ** The paths through Read *)

(** The four ways a [Read] ends once [reader] has produced the connection
    and the raw read has answered: the answer is passed on, a clean
    end-of-stream releases the connection, a stall past the bound gives up,
    or the connection is released and [reader] is asked for another. *)
Lemma Read_paths (h h1 : httpReadSeeker) (plen : nat) (w w1 : World)
    (rd rd' : Conn) (d : list byte) (e0 : option error) :
  closed h = false ->
  reader h w = (h1, w1, inl rd) ->
  conn_read rd plen = (d, e0, rd') ->
  let n := Z.of_nat (length d) in
  let h2 := set_offset (add64 (offset h1) n) (set_rc (Some rd') h1) in
  let h3 := if (0 <? n) || is_nil e0 then set_errs 0 h2 else h2 in
  let h4 := if n =? 0 then set_errs (add64 (errsWithNoProgress h3) 1) h3 else h3 in
  (e0 <> Some ErrUnexpectedEOF /\ e0 <> Some EOF
   /\ Read h plen w = (h3, w1, (d, e0)))
  \/ (e0 = Some EOF
      /\ Read h plen w =
           (set_rc None h3,
            close_logged "httpReadSeeker: failed to close ReadCloser after io.EOF" rd' w1,
            (d, e0)))
  \/ (e0 = Some ErrUnexpectedEOF /\ d = []
      /\ maxRetry < errsWithNoProgress h4
      /\ Read h plen w = (h4, w1, (d, e0)))
  \/ (e0 = Some ErrUnexpectedEOF
      /\ (d <> [] \/ errsWithNoProgress h4 <= maxRetry)
      /\ exists h6 w3 r,
           reader (set_rc None h4)
             (close_logged "httpReadSeeker: failed to close ReadCloser" rd' w1)
           = (h6, w3, r)
           /\ Read h plen w =
                (h6, w3, (d, match r with inl _ => None | inr _ => e0 end))).
Proof.
  intros Hc Hr Hcr n h2 h3 h4.
  unfold Read. rewrite Hc, Hr, Hcr. fold n. fold h2. fold h3.
  assert (Hrel : forall msg hx, rc hx = Some rd' ->
            release msg hx w1 = (set_rc None hx, close_logged msg rd' w1)).
  { intros msg hx Hx. unfold release. now rewrite Hx. }
  assert (Hrc3 : rc h3 = Some rd').
  { unfold h3. destruct ((0 <? n) || is_nil e0); reflexivity. }
  destruct e0 as [e|].
  2:{ left. repeat split; discriminate. }
  destruct e; try (left; repeat split; discriminate).
  - (* io.EOF *)
    right; left. split; [reflexivity|]. now rewrite (Hrel _ h3 Hrc3).
  - (* io.ErrUnexpectedEOF *)
    right; right. fold h4.
    assert (Hrc4 : rc h4 = Some rd').
    { unfold h4. destruct (n =? 0); simpl; exact Hrc3. }
    destruct ((n =? 0) && (maxRetry <? errsWithNoProgress h4)) eqn:Hgive.
    + left. apply andb_prop in Hgive as [Hn Hgt].
      apply Z.eqb_eq in Hn. apply Z.ltb_lt in Hgt.
      repeat split; auto. destruct d; [reflexivity | discriminate Hn].
    + right. split; [reflexivity | split].
      * apply andb_false_iff in Hgive as [Hn | Hle].
        -- left. intros ->. discriminate Hn.
        -- right. now apply Z.ltb_ge.
      * rewrite (Hrel _ h4 Hrc4).
        destruct (reader (set_rc None h4) _) as [[h6 w3] r] eqn:Hr2.
        exists h6, w3, r. split; [reflexivity|]. now destruct r.
Qed.

Ltac read_cases HR :=
  match type of HR with
  | Read ?h ?plen ?w = _ =>
      destruct (closed h) eqn:Hc;
      [ rewrite (Read_closed _ _ _ Hc) in HR
      | destruct (reader h w) as [[h1 w1] [rd|er]] eqn:Hr;
        [ destruct (conn_read rd plen) as [[d0 e0] rd'] eqn:Hcr;
          destruct (Read_paths _ _ _ _ _ _ _ _ _ Hc Hr Hcr)
            as [(Hne1 & Hne2 & HP)
               | [(He0 & HP)
                 | [(He0 & Hd0 & Hgt & HP)
                   | (He0 & Hretry & h6 & w3 & r & Hr2 & HP)]]];
          rewrite HP in HR
        | rewrite (Read_no_reader _ _ _ _ _ _ Hc Hr) in HR ] ]
  end.

(** ** Read: the stall counter *)

(** C9, as the code has it: a [Read] that returns at least one byte, or
    whose raw read on the connection reports no error, leaves the stall
    counter at zero (and the second kind returns no error).  A [Read] whose
    raw read dies with no byte and which returns no error all the same,
    because the reconnection succeeded, returns no byte and leaves the
    counter one higher than it was. *)
Theorem Read_resets_stalls (h h' : httpReadSeeker) (plen : nat) (w w' : World)
    (data : list byte) (err : option error) :
  Read h plen w = (h', w', (data, err)) ->
  (data <> [] -> errsWithNoProgress h' = 0)
  /\ (closed h = false ->
      forall h1 w1 rd d rd',
        reader h w = (h1, w1, inl rd) ->
        conn_read rd plen = (d, None, rd') ->
        err = None /\ errsWithNoProgress h' = 0)
  /\ (closed h = false ->
      forall h1 w1 rd rd',
        reader h w = (h1, w1, inl rd) ->
        conn_read rd plen = ([], Some ErrUnexpectedEOF, rd') ->
        err = None ->
        data = []
        /\ errsWithNoProgress h' = add64 (errsWithNoProgress h) 1
        /\ (0 <= errsWithNoProgress h < max_int64 ->
            errsWithNoProgress h' = errsWithNoProgress h + 1)).
Proof.
  intros HR. split; [| split].
  - intros Hd. destruct (closed h) eqn:Hc.
    + rewrite (Read_closed _ _ _ Hc) in HR. inversion HR; subst. now elim Hd.
    + destruct (reader h w) as [[h1 w1] [rd|e]] eqn:Hr.
      * destruct (conn_read rd plen) as [[d e] rd'] eqn:Hcr.
        destruct (Read_open_ok _ _ _ _ _ _ _ _ _ Hc Hr Hcr)
          as (h2 & w2 & e2 & HR2 & _ & _ & _ & _ & Hreset & _).
        rewrite HR2 in HR. inversion HR; subst. apply Hreset. now left.
      * rewrite (Read_no_reader _ _ _ _ _ _ Hc Hr) in HR.
        inversion HR; subst. now elim Hd.
  - intros Hc h1 w1 rd d rd' Hr Hcr.
    destruct (Read_open_ok _ _ _ _ _ _ _ _ _ Hc Hr Hcr)
      as (h2 & w2 & e2 & HR2 & _ & _ & _ & _ & Hreset & _ & _ & Hnil & _).
    rewrite HR2 in HR. inversion HR; subst.
    destruct (Hnil eq_refl) as (-> & _). split; [reflexivity|].
    apply Hreset. now right.
  - intros Hc h1 w1 rd rd' Hr Hcr Herr.
    destruct (reader_fields _ _ _ _ _ Hr) as (_ & _ & _ & _ & He1).
    assert (Hstall : errsWithNoProgress h' = add64 (errsWithNoProgress h) 1
                     /\ data = []).
    { destruct (Read_paths _ _ _ _ _ _ _ _ _ Hc Hr Hcr)
        as [(Hne & _) | [(He0 & _) | [(_ & _ & _ & HP) | (_ & _ & h6 & w3 & r & Hr2 & HP)]]].
      - now elim Hne.
      - discriminate He0.
      - rewrite HP in HR. inversion HR; subst. discriminate.
      - rewrite HP in HR.
        destruct (reader_fields _ _ _ _ _ Hr2) as (_ & _ & _ & _ & He6).
        inversion HR; subst. split; [| reflexivity].
        rewrite He6. simpl. now rewrite He1. }
    destruct Hstall as (Hs & Hd).
    split; [exact Hd | split; [exact Hs |]].
    intros Hrange. rewrite Hs. apply add64_exact.
    unfold in_int64, min_int64, max_int64 in *. lia.
Qed.

Lemma Read_resets_stalls_witness :
  (errsWithNoProgress ex_absorbed = 1
   /\ errsWithNoProgress (fst (fst (Read ex_absorbed 10 ex_absorbed_world))) = 0)
  /\ (errsWithNoProgress ex_flaky = 0
      /\ snd (Read ex_flaky 10 []) = ([], None)
      /\ errsWithNoProgress ex_absorbed = 0 + 1).
Proof.
  split.
  - split; [reflexivity|].
    assert (HR : Read ex_absorbed 10 ex_absorbed_world =
                 (fst (fst (Read ex_absorbed 10 ex_absorbed_world)),
                  snd (fst (Read ex_absorbed 10 ex_absorbed_world)),
                  (ramp 3, None))) by (vm_compute; reflexivity).
    destruct (Read_resets_stalls _ _ _ _ _ _ _ HR) as (Hbytes & _).
    apply Hbytes. discriminate.
  - split; [reflexivity | split; [reflexivity|]].
    assert (HR : Read ex_flaky 10 [] = (ex_absorbed, ex_absorbed_world, ([], None)))
      by (vm_compute; reflexivity).
    destruct (Read_resets_stalls _ _ _ _ _ _ _ HR) as (_ & _ & Hstall).
    assert (Hrd : reader ex_flaky [] =
                  (set_rc (Some (mkConn (Opened 0) truncated_body None)) ex_flaky,
                   [EvOpen 0 0], inl (mkConn (Opened 0) truncated_body None)))
      by (vm_compute; reflexivity).
    destruct (Hstall eq_refl _ _ _ (mkConn (Opened 0) [] None) Hrd eq_refl eq_refl)
      as (_ & _ & Hplus).
    apply Hplus. vm_compute. split; [discriminate | reflexivity].
Defined.

(** C9, as the specification words it, fails: when the raw read dies with no byte and
    the reconnect succeeds, [Read] returns no error and the counter is 1. *)
Lemma Read_no_error_keeps_stall :
  snd (Read ex_flaky 10 []) = ([], None)
  /\ errsWithNoProgress (fst (fst (Read ex_flaky 10 []))) = 1
  /\ ~ (forall h plen w,
          snd (snd (Read h plen w)) = None ->
          errsWithNoProgress (fst (fst (Read h plen w))) = 0).
Proof.
  split; [reflexivity | split; [reflexivity |]].
  intros H. specialize (H ex_flaky 10%nat [] eq_refl). discriminate H.
Qed.

Lemma Read_length (h h' : httpReadSeeker) (plen : nat) (w w' : World)
    (d : list byte) (e : option error) :
  Read h plen w = (h', w', (d, e)) -> (length d <= plen)%nat.
Proof.
  intros HR. read_cases HR; inversion HR; subst; simpl; try lia;
    now destruct (conn_read_same _ _ _ _ _ Hcr) as (_ & _ & ?).
Qed.

(** X1: [Read] never moves the offset backwards and never by more than
    the buffer length: as long as the sum fits [int64], the new offset is the
    old one plus the number of bytes returned, which is at most [len(p)]. *)
Theorem Read_offset_monotone (h h' : httpReadSeeker) (plen : nat) (w w' : World)
    (d : list byte) (e : option error) :
  in_int64 (offset h) ->
  offset h + Z.of_nat plen <= max_int64 ->
  Read h plen w = (h', w', (d, e)) ->
  (length d <= plen)%nat
  /\ offset h' = offset h + Z.of_nat (length d)
  /\ offset h <= offset h' <= offset h + Z.of_nat plen.
Proof.
  intros Hin Hfit HR.
  pose proof (Read_length _ _ _ _ _ _ _ HR) as Hlen.
  pose proof (Read_offset _ _ _ _ _ _ _ Hin HR) as Ho.
  rewrite add64_exact in Ho
    by (unfold in_int64, min_int64, max_int64 in *; lia).
  repeat split; try assumption; lia.
Qed.

Lemma Read_offset_monotone_witness :
  (length (ramp 10) <= 10)%nat
  /\ offset ex_held = offset ex_new + Z.of_nat (length (ramp 10))
  /\ offset ex_new <= offset ex_held <= offset ex_new + Z.of_nat 10.
Proof.
  apply (Read_offset_monotone ex_new ex_held 10 [] ex_held_world (ramp 10) None).
  - vm_compute; split; discriminate.
  - vm_compute; discriminate.
  - reflexivity.
Defined.

(** X2: [Read] never makes up an error.  It returns [io.EOF] itself only
    on a closed reader or when the raw read on the connection reported it;
    once [reader] has given a connection, the bytes are those of the raw
    read and the error is the raw one, unchanged, or none at all when the
    raw one was an unexpected end; and when [reader] fails, its error comes
    back with no byte, the reader is untouched and the error is not
    [io.EOF]. *)
Theorem Read_passes_errors (h h' : httpReadSeeker) (plen : nat) (w w' : World)
    (d : list byte) (e : option error) :
  Read h plen w = (h', w', (d, e)) ->
  (e = Some EOF ->
     closed h = true
     \/ exists h1 w1 rd rd',
          reader h w = (h1, w1, inl rd)
          /\ conn_read rd plen = (d, Some EOF, rd'))
  /\ (closed h = false ->
      forall h1 w1 rd d0 e0 rd',
        reader h w = (h1, w1, inl rd) ->
        conn_read rd plen = (d0, e0, rd') ->
        d = d0 /\ (e = e0 \/ (e = None /\ e0 = Some ErrUnexpectedEOF)))
  /\ (closed h = false ->
      forall h1 w1 er,
        reader h w = (h1, w1, inr er) ->
        d = [] /\ e = Some er /\ h' = h /\ er <> EOF).
Proof.
  intros HR. split; [| split].
  - intros ->. read_cases HR.
    + now left.
    + inversion HR; subst. now elim Hne2.
    + inversion HR; subst. right. now exists h1, w1, rd, rd'.
    + inversion HR; subst. discriminate.
    + inversion HR; subst. destruct r; discriminate.
    + inversion HR; subst.
      destruct (reader_err_same _ _ _ _ _ Hr) as (_ & _ & Hne). now elim Hne.
  - intros Hc h1 w1 rd d0 e0 rd' Hr Hcr.
    destruct (Read_paths _ _ _ _ _ _ _ _ _ Hc Hr Hcr)
      as [(_ & _ & HP) | [(_ & HP) | [(_ & _ & _ & HP)
         | (He0 & _ & h6 & w3 & r & _ & HP)]]];
      rewrite HP in HR; inversion HR; subst; auto.
    destruct r; auto.
  - intros Hc h1 w1 er Hr.
    rewrite (Read_no_reader _ _ _ _ _ _ Hc Hr) in HR.
    destruct (reader_err_same _ _ _ _ _ Hr) as (-> & _ & Hne).
    inversion HR; subst. auto.
Qed.

Lemma Read_passes_errors_witness :
  exists h1 w1 rd rd',
    reader ex_drained ex_drained_world = (h1, w1, inl rd)
    /\ conn_read rd 10 = ([], Some EOF, rd').
Proof.
  destruct (Read_passes_errors ex_drained
              (fst (fst (Read ex_drained 10 ex_drained_world))) 10
              ex_drained_world
              (snd (fst (Read ex_drained 10 ex_drained_world))) [] (Some EOF)
              eq_refl) as (Heof & _).
  destruct (Heof eq_refl) as [Hc | Hraw]; [discriminate Hc | exact Hraw].
Defined.

(** X3: a [Read] that returns no error leaves the stall counter within the
    retry bound; a counter above [maxRetry] is only ever left by a [Read]
    that reported an error. *)
Theorem Read_no_error_bounds_stalls (h h' : httpReadSeeker) (plen : nat)
    (w w' : World) (d : list byte) :
  Read h plen w = (h', w', (d, None)) ->
  errsWithNoProgress h' <= maxRetry.
Proof.
  intros HR. read_cases HR; try discriminate.
  - (* passed on: the raw read had no error *)
    inversion HR; subst. rewrite orb_true_r. simpl. unfold maxRetry. lia.
  - (* a clean end is an error to the caller *)
    subst e0. discriminate.
  - subst e0. discriminate.
  - (* reconnected *)
    destruct r as [c|er]; [| subst e0; discriminate].
    inversion HR; subst.
    destruct (reader_fields _ _ _ _ _ Hr2) as (_ & _ & _ & _ & ->). simpl.
    destruct Hretry as [Hd | Hle]; [| exact Hle].
    destruct d as [|b l]; [now elim Hd|].
    cbn [length Z.of_nat Z.eqb Z.ltb Z.compare orb]. simpl.
    unfold maxRetry. lia.
Qed.

Lemma Read_no_error_bounds_stalls_witness :
  errsWithNoProgress (fst (fst (Read ex_flaky 10 []))) <= maxRetry.
Proof.
  apply (Read_no_error_bounds_stalls ex_flaky _ 10 []
           (snd (fst (Read ex_flaky 10 []))) []).
  reflexivity.
Defined.

(** ** After the retry bound *)

(** X4: once the stall counter has reached the bound, [Read] stops
    reconnecting.  As long as the connection it holds keeps stalling, every
    call returns the truncation error with no byte; the connection is
    neither closed nor replaced, the opener is not called, and only the
    counter moves. *)
Theorem Read_gives_up_for_good (plens : list nat) :
  forall (h : httpReadSeeker) (w : World) (c : Conn) (rest : list Response),
    closed h = false -> rc h = Some c ->
    script c = stalls (length plens) rest ->
    in_int64 (offset h) ->
    maxRetry <= errsWithNoProgress h ->
    errsWithNoProgress h + Z.of_nat (length plens) <= max_int64 ->
    read_seq plens h w =
      (mkHRS (size h) (offset h) (Some (with_script rest c)) (open h) false
         (errsWithNoProgress h + Z.of_nat (length plens)),
       w,
       repeat ([], Some ErrUnexpectedEOF) (length plens)).
Proof.
  induction plens as [|plen plens IH]; intros h w c rest Hc Hr Hs Hin Hge Hmax.
  - simpl. rewrite Z.add_0_r. unfold stalls in Hs. simpl in Hs.
    destruct h as [sz o r op cl er], c as [id s ce]. simpl in *. now subst.
  - assert (Hadd : add64 (errsWithNoProgress h) 1 = errsWithNoProgress h + 1).
    { apply add64_exact. unfold in_int64, min_int64, max_int64, maxRetry in *.
      simpl length in Hmax. lia. }
    assert (Hcr : conn_read c plen
                  = ([], Some ErrUnexpectedEOF,
                     with_script (stalls (length plens) rest) c)).
    { unfold conn_read. rewrite Hs. reflexivity. }
    cbn [read_seq].
    rewrite (Read_gives_up h plen w c _ Hc Hr Hcr)
      by (rewrite Hadd; unfold maxRetry in *; lia).
    rewrite (IH _ w (with_script (stalls (length plens) rest) c) rest);
      try reflexivity.
    + simpl. rewrite Hadd, (add64_0_r _ Hin). unfold with_script. simpl.
      do 3 f_equal. simpl length. lia.
    + simpl. now rewrite (add64_0_r _ Hin).
    + simpl. rewrite Hadd. unfold maxRetry in *. lia.
    + simpl. rewrite Hadd. simpl length in Hmax. lia.
Qed.

Lemma Read_gives_up_for_good_witness :
  read_seq [10; 0; 2]%nat ex_stuck [EvOpen 0 0] =
    (mkHRS (-1) 0 (Some (mkConn (Opened 3) [] None))
       (Some (flaky_opener 7 (ramp 3))) false 7,
     [EvOpen 0 0],
     repeat ([], Some ErrUnexpectedEOF) 3).
Proof.
  apply (Read_gives_up_for_good [10; 0; 2]%nat ex_stuck [EvOpen 0 0]
           (mkConn (Opened 3) (stalls 3 []) None) []); try reflexivity.
  - vm_compute; split; discriminate.
  - vm_compute; discriminate.
  - vm_compute; discriminate.
Defined.

(** ** A truncation at the end of a blob of known size *)

Lemma Read_truncated_at_end (h : httpReadSeeker) (plen : nat) (w : World)
    (c c' : Conn) (d : list byte) :
  closed h = false -> rc h = Some c ->
  conn_read c plen = (d, Some ErrUnexpectedEOF, c') ->
  let o' := add64 (offset h) (Z.of_nat (length d)) in
  let er' := match d with [] => add64 (errsWithNoProgress h) 1 | _ => 0 end in
  size h <> -1 -> size h <= o' ->
  (d <> [] \/ er' <= maxRetry) ->
  Read h plen w =
    (mkHRS (size h) o' (Some empty_reader) (open h) false er',
     close_logged "httpReadSeeker: failed to close ReadCloser" c' w,
     (d, None)).
Proof.
  destruct h as [sz o r op cl er]. simpl. intros -> -> Hcr Hk Hs Hretry.
  unfold Read. simpl. rewrite Hcr.
  assert (Hg : forall x, sz <= x -> (sz =? -1) || (x <? sz) = false).
  { intros x Hx. apply Z.eqb_neq in Hk. apply Z.ltb_ge in Hx.
    now rewrite Hk, Hx. }
  apply Hg in Hs.
  destruct d as [|b l].
  - simpl. destruct Hretry as [Hd | Hle]; [now elim Hd|].
    apply Z.ltb_ge in Hle. rewrite Hle. simpl.
    unfold reader. simpl. simpl in Hs. now rewrite Hs.
  - cbn [length Z.of_nat Z.eqb Z.ltb Z.compare orb andb]. simpl.
    unfold reader. simpl. simpl in Hs. now rewrite Hs.
Qed.

(** X5: a truncation that arrives once the offset has reached a known
    size is not an error to the caller.  [Read] returns the bytes with no
    error, closes the broken connection and, without calling the opener,
    takes the synthetic empty stream; the next [Read] returns a clean
    end-of-stream. *)
Theorem Read_truncation_at_end_is_clean (h : httpReadSeeker) (plen plen' : nat)
    (w : World) (c c' : Conn) (d : list byte) :
  closed h = false -> rc h = Some c ->
  conn_read c plen = (d, Some ErrUnexpectedEOF, c') ->
  in_int64 (offset h + Z.of_nat (length d)) ->
  size h <> -1 -> size h <= offset h + Z.of_nat (length d) ->
  (d <> [] \/ 0 <= errsWithNoProgress h < maxRetry) ->
  exists h1 h2 w1,
    Read h plen w = (h1, w1, (d, None))
    /\ w1 = close_logged "httpReadSeeker: failed to close ReadCloser" c' w
    /\ rc h1 = Some empty_reader
    /\ offset h1 = offset h + Z.of_nat (length d)
    /\ Read h1 plen' w1 = (h2, w1 ++ [EvClose Synthetic], ([], Some EOF))
    /\ rc h2 = None
    /\ count_opens (w1 ++ [EvClose Synthetic]) = count_opens w.
Proof.
  intros Hc Hr Hcr Hin Hk Hs Hretry.
  pose proof (add64_exact _ _ Hin) as Ho.
  do 3 eexists. split; [| split; [reflexivity |]].
  - apply (Read_truncated_at_end h plen w c c' d Hc Hr Hcr Hk).
    + now rewrite Ho.
    + destruct d; [| left; discriminate].
      destruct Hretry as [Hd | Hlt]; [now elim Hd | right].
      rewrite add64_exact
        by (unfold in_int64, min_int64, max_int64, maxRetry in *; lia).
      lia.
  - split; [reflexivity | split; [exact Ho |]].
    split; [| split].
    + unfold Read. simpl. unfold release, close_logged. simpl.
      rewrite Ho, add64_0_r by exact Hin. reflexivity.
    + reflexivity.
    + rewrite count_opens_app, count_opens_close_logged.
      change (count_opens [EvClose Synthetic]) with 0%nat. lia.
Qed.

Lemma Read_truncation_at_end_is_clean_witness :
  exists h1 h2 w1,
    Read ex_cut 10 [EvOpen 0 0] = (h1, w1, (ramp 3, None))
    /\ w1 = [EvOpen 0 0; EvClose (Opened 0)]
    /\ rc h1 = Some empty_reader
    /\ offset h1 = 3
    /\ Read h1 10 w1 = (h2, w1 ++ [EvClose Synthetic], ([], Some EOF))
    /\ rc h2 = None
    /\ count_opens (w1 ++ [EvClose Synthetic]) = 1%nat.
Proof.
  apply (Read_truncation_at_end_is_clean ex_cut 10 10 [EvOpen 0 0]
           (mkConn (Opened 0) [(ramp 3, Some ErrUnexpectedEOF)] None)
           (mkConn (Opened 0) [] None) (ramp 3)); try reflexivity.
  - vm_compute; split; discriminate.
  - vm_compute; discriminate.
  - left; discriminate.
Defined.

(** ** How often an operation calls the opener *)

Lemma count_opens_snoc_open (w : World) (i : nat) (off : Z) :
  count_opens (w ++ [EvOpen i off]) = S (count_opens w).
Proof. rewrite count_opens_app. unfold count_opens at 2. simpl. lia. Qed.

Lemma reader_count (h h1 : httpReadSeeker) (w w1 : World) (r : Conn + error) :
  reader h w = (h1, w1, r) ->
  (count_opens w <= count_opens w1 <= S (count_opens w))%nat.
Proof.
  destruct h as [sz o [c|] [f|] cl er]; unfold reader, call_open; simpl;
    intros H.
  - inversion H; subst; lia.
  - inversion H; subst; lia.
  - destruct ((sz =? -1) || (o <? sz)); [| inversion H; subst; lia].
    destruct (f (count_opens w) o); inversion H; subst;
      rewrite count_opens_snoc_open; lia.
  - destruct ((sz =? -1) || (o <? sz)); inversion H; subst; lia.
Qed.

Lemma ReadAt_count (h h' : httpReadSeeker) (plen : nat) (off : Z)
    (w w' : World) (r : ReadResult) :
  ReadAt h plen off w = Some (h', w', r) ->
  (count_opens w <= count_opens w' <= S (count_opens w))%nat.
Proof.
  unfold ReadAt, call_open.
  destruct (closed h); [intros H; inversion H; subst; lia|].
  destruct (off <? 0); [intros H; inversion H; subst; lia|].
  destruct (negb (size h =? -1) && (size h <=? off));
    [intros H; inversion H; subst; lia|].
  destruct (open h) as [f|]; [| intros H; inversion H; subst; lia].
  destruct (f (count_opens w) off) as [body cerr|e].
  - destruct (ReadFull _ plen) as [[[buf err] c']|]; [| discriminate].
    intros H; inversion H; subst.
    rewrite count_opens_close_logged, count_opens_snoc_open. lia.
  - intros H; inversion H; subst. rewrite count_opens_snoc_open. lia.
Qed.

Lemma Seek_count (h : httpReadSeeker) (off whence : Z) (w : World) :
  count_opens (snd (fst (Seek h off whence w))) = count_opens w.
Proof.
  unfold Seek. destruct (closed h); [reflexivity|].
  destruct (seek_abs h off whence) as [abs|e]; [| reflexivity].
  destruct (abs <? 0); [reflexivity|].
  destruct (negb (abs =? offset h)); [| reflexivity].
  unfold release. destruct (rc h); simpl; [| reflexivity].
  apply count_opens_close_logged.
Qed.

Lemma Close_count (h : httpReadSeeker) (w : World) :
  count_opens (snd (fst (Close h w))) = count_opens w.
Proof.
  unfold Close. destruct (closed h); [reflexivity|]. simpl.
  destruct (rc h); simpl; [| reflexivity].
  rewrite count_opens_app. unfold count_opens at 2. simpl. lia.
Qed.

(** X6: the opener is called sparingly.  A [Read] calls it at most twice
    (once to get a connection, once to reconnect after a truncation), a
    [ReadAt] at most once, [Seek] and [Close] never: a seek only drops the
    connection and leaves the reopening to the next [Read]. *)
Theorem opener_calls_bounded (h : httpReadSeeker) (w : World) :
  (forall plen,
      (count_opens w <= count_opens (snd (fst (Read h plen w)))
       <= count_opens w + 2)%nat)
  /\ (forall plen off h' w' r,
        ReadAt h plen off w = Some (h', w', r) ->
        (count_opens w <= count_opens w' <= count_opens w + 1)%nat)
  /\ (forall off whence,
        count_opens (snd (fst (Seek h off whence w))) = count_opens w)
  /\ count_opens (snd (fst (Close h w))) = count_opens w.
Proof.
  split; [| split; [| split]].
  - intros plen.
    destruct (Read h plen w) as [[h' w'] [d e]] eqn:HR. simpl.
    read_cases HR; inversion HR; subst; try lia;
      try (pose proof (reader_count _ _ _ _ _ Hr); lia).
    + pose proof (reader_count _ _ _ _ _ Hr).
      rewrite count_opens_close_logged. lia.
    + pose proof (reader_count _ _ _ _ _ Hr).
      pose proof (reader_count _ _ _ _ _ Hr2) as H2.
      rewrite count_opens_close_logged in H2. lia.
  - intros plen off h' w' r HR.
    pose proof (ReadAt_count _ _ _ _ _ _ _ HR). lia.
  - intros off whence. apply Seek_count.
  - apply Close_count.
Qed.

(** The bound of two is reached: a fresh reader whose first connection
    dies at once opens twice within one [Read]. *)
Lemma opener_calls_bounded_witness :
  count_opens (snd (fst (Read ex_flaky 10 []))) = 2%nat
  /\ (count_opens [] <= count_opens (snd (fst (Read ex_flaky 10 [])))
      <= count_opens [] + 2)%nat
  /\ (count_opens ex_held_world
      <= count_opens (ex_held_world ++ [EvOpen 1 95; EvClose (Opened 1)])
      <= count_opens ex_held_world + 1)%nat.
Proof.
  destruct (opener_calls_bounded ex_flaky []) as (HRead & _).
  destruct (opener_calls_bounded ex_held ex_held_world) as (_ & HReadAt & _).
  split; [reflexivity | split; [exact (HRead 10%nat) |]].
  apply (HReadAt 10%nat 95 ex_held
           (ex_held_world ++ [EvOpen 1 95; EvClose (Opened 1)])
           (map byte_of (seq 95 5), Some ErrUnexpectedEOF)).
  reflexivity.
Defined.

(** ** io.ReadFull on a script without errors *)

Lemma script_data_clean (chunks : list (list byte)) :
  script_data (clean chunks) = concat chunks.
Proof.
  unfold script_data, clean. rewrite map_map. simpl. now rewrite map_id.
Qed.

Section ReadFullClean.

Variable plen : nat.

(** On a script without errors the loop of [io.ReadAtLeast] only ever
    stops on a full buffer or on the end of the stream. *)
Lemma ReadAtLeast_loop_clean (fuel : nat) :
  forall (r r' : Conn) (buf buf' : list byte) (err err' : option error)
         (chunks : list (list byte)),
    script r = clean chunks ->
    (err = None \/ (err = Some EOF /\ chunks = [])) ->
    ReadAtLeast_loop fuel r plen plen buf err = Some (buf', err', r') ->
    exists chunks',
      script r' = clean chunks'
      /\ (err' = None \/ (err' = Some EOF /\ chunks' = [])).
Proof.
  induction fuel as [|fuel IH]; intros r r' buf buf' err err' chunks Hs He HL;
    simpl in HL;
    destruct ((length buf <? plen)%nat && is_nil err) eqn:Hcond;
    try discriminate;
    try (inversion HL; subst; now exists chunks).
  unfold conn_read in HL. rewrite Hs in HL.
  destruct chunks as [|d0 rest]; simpl in HL.
  - exact (IH r _ _ _ _ _ [] Hs (or_intror (conj eq_refl eq_refl)) HL).
  - destruct (length d0 <=? plen - length buf)%nat.
    + exact (IH (with_script (clean rest) r) _ _ _ _ _ rest eq_refl
               (or_introl eq_refl) HL).
    + exact (IH (with_script (clean (skipn (plen - length buf) d0 :: rest)) r)
               _ _ _ _ _ (skipn (plen - length buf) d0 :: rest) eq_refl
               (or_introl eq_refl) HL).
Qed.

Lemma ReadFull_clean (c : Conn) (chunks : list (list byte)) :
  script c = clean chunks ->
  exists c',
    ReadFull c plen =
      Some (firstn plen (concat chunks),
            (if (plen <=? length (concat chunks))%nat then None
             else match concat chunks with
                  | [] => Some EOF
                  | _ :: _ => Some ErrUnexpectedEOF
                  end),
            c')
    /\ conn_id c' = conn_id c /\ close_err c' = close_err c.
Proof.
  intros Hs.
  destruct (ReadAtLeast_loop_full plen (S (length (script c))) c [] None)
    as (b & e & c' & HL & H1 & H2 & H3 & H4 & H5).
  { simpl. lia. }
  { intros _ _. lia. }
  destruct (ReadAtLeast_loop_clean _ _ _ _ _ _ _ chunks Hs (or_introl eq_refl) HL)
    as (chunks' & Hs' & He').
  simpl in H5. rewrite Hs, Hs', !script_data_clean in H5.
  exists c'. split; [| auto].
  unfold ReadFull, ReadAtLeast. rewrite Nat.ltb_irrefl, HL.
  destruct (plen <=? length b)%nat eqn:Hfull.
  - apply Nat.leb_le in Hfull.
    assert (Hb : length b = plen) by lia.
    assert (Hle : (plen <=? length (concat chunks))%nat = true).
    { apply Nat.leb_le. rewrite <- H5, length_app. lia. }
    rewrite Hle, <- H5, <- Hb, firstn_app, firstn_all, Nat.sub_diag.
    simpl. now rewrite app_nil_r.
  - apply Nat.leb_gt in Hfull. specialize (H2 Hfull).
    destruct He' as [-> | (-> & ->)]; [now elim H2|].
    simpl in H5. rewrite app_nil_r in H5. subst b.
    assert (Hgt : (plen <=? length (concat chunks))%nat = false)
      by (apply Nat.leb_gt; exact Hfull).
    rewrite Hgt, firstn_all2 by lia.
    destruct (concat chunks); reflexivity.
Qed.

End ReadFullClean.

(** ** ReadAt: the private connection *)

Lemma script_data_app (s1 s2 : list Response) :
  script_data (s1 ++ s2) = script_data s1 ++ script_data s2.
Proof. unfold script_data. now rewrite map_app, concat_app. Qed.

Section ReadFullHead.

Variable plen : nat.

(** As long as the error-free head of the script has the bytes, the loop
    of [io.ReadAtLeast] stops on a full buffer. *)
Lemma ReadAtLeast_loop_enough (fuel : nat) :
  forall (r r' : Conn) (buf buf' : list byte) (err' : option error)
         (chunks : list (list byte)) (rest : list Response),
    script r = clean chunks ++ rest ->
    (plen <= length buf + length (concat chunks))%nat ->
    ReadAtLeast_loop fuel r plen plen buf None = Some (buf', err', r') ->
    (plen <= length buf')%nat.
Proof.
  induction fuel as [|fuel IH]; intros r r' buf buf' err' chunks rest Hs Hlen HL;
    simpl in HL; destruct (length buf <? plen)%nat eqn:Hlt; simpl in HL;
    try discriminate;
    try (apply Nat.ltb_ge in Hlt; inversion HL; subst; exact Hlt).
  apply Nat.ltb_lt in Hlt.
  unfold conn_read in HL. rewrite Hs in HL.
  destruct chunks as [|d0 cs]; simpl in Hlen, HL.
  - lia.
  - rewrite length_app in Hlen.
    destruct (length d0 <=? plen - length buf)%nat eqn:Hfit.
    + apply Nat.leb_le in Hfit.
      refine (IH (with_script (clean cs ++ rest) r) r' (buf ++ d0) buf' err' cs rest
                eq_refl _ HL).
      rewrite length_app. lia.
    + apply Nat.leb_gt in Hfit.
      refine (IH (with_script ((skipn (plen - length buf) d0, None) :: clean cs ++ rest) r)
                r' (buf ++ firstn (plen - length buf) d0) buf' err'
                (skipn (plen - length buf) d0 :: cs) rest eq_refl _ HL).
      rewrite length_app, length_firstn. lia.
Qed.

(** When the script reports an error before the buffer is full, the loop
    stops there, with every byte up to the error. *)
Lemma ReadAtLeast_loop_broken (fuel : nat) :
  forall (r r' : Conn) (buf buf' : list byte) (err' : option error)
         (chunks : list (list byte)) (d : list byte) (e : error)
         (rest : list Response),
    script r = clean chunks ++ (d, Some e) :: rest ->
    (length buf + length (concat chunks) + length d < plen)%nat ->
    ReadAtLeast_loop fuel r plen plen buf None = Some (buf', err', r') ->
    buf' = buf ++ concat chunks ++ d /\ err' = Some e.
Proof.
  induction fuel as [|fuel IH];
    intros r r' buf buf' err' chunks d e rest Hs Hlen HL; simpl in HL;
    assert (Hlt : (length buf <? plen)%nat = true) by (apply Nat.ltb_lt; lia);
    rewrite Hlt in HL; simpl in HL; [discriminate|].
  unfold conn_read in HL. rewrite Hs in HL.
  destruct chunks as [|d0 cs]; simpl in Hlen, HL.
  - assert (Hfit : (length d <=? plen - length buf)%nat = true)
      by (apply Nat.leb_le; lia).
    rewrite Hfit in HL.
    destruct fuel; simpl in HL; rewrite andb_false_r in HL;
      inversion HL; subst; auto.
  - rewrite length_app in Hlen.
    assert (Hfit : (length d0 <=? plen - length buf)%nat = true)
      by (apply Nat.leb_le; lia).
    rewrite Hfit in HL.
    assert (Hlen' : (length (buf ++ d0) + length (concat cs) + length d < plen)%nat)
      by (rewrite length_app; lia).
    destruct (IH (with_script (clean cs ++ (d, Some e) :: rest) r) _ _ _ _ cs d e rest
                eq_refl Hlen' HL) as (-> & ->).
    split; [| reflexivity]. simpl. now rewrite <- !app_assoc.
Qed.

Lemma ReadFull_enough (c c' : Conn) (chunks : list (list byte))
    (rest : list Response) (buf : list byte) (err : option error) :
  script c = clean chunks ++ rest ->
  (plen <= length (concat chunks))%nat ->
  ReadFull c plen = Some (buf, err, c') ->
  buf = firstn plen (concat chunks) /\ err = None.
Proof.
  intros Hs Hlen HF.
  destruct (ReadFull_spec plen c) as (b & e & cb & HF' & Hiff & _ & _ & Hpre).
  rewrite HF in HF'. injection HF' as <- <- <-.
  assert (He : err = None).
  { unfold ReadFull, ReadAtLeast in HF. rewrite Nat.ltb_irrefl in HF.
    destruct (ReadAtLeast_loop (S (length (script c))) c plen plen [] None)
      as [[[b e] cb]|] eqn:HL; [| discriminate].
    pose proof (ReadAtLeast_loop_enough _ c _ [] _ _ chunks rest Hs Hlen HL) as Hfull.
    apply Nat.leb_le in Hfull. rewrite Hfull in HF. now inversion HF. }
  split; [| exact He].
  apply Hiff in He. rewrite He, Hs, script_data_app, script_data_clean in Hpre.
  rewrite Hpre, firstn_app.
  replace (plen - length (concat chunks))%nat with 0%nat by lia.
  simpl. now rewrite app_nil_r.
Qed.

Lemma ReadFull_broken (c c' : Conn) (chunks : list (list byte)) (d : list byte)
    (e : error) (rest : list Response) (buf : list byte) (err : option error) :
  script c = clean chunks ++ (d, Some e) :: rest ->
  (length (concat chunks ++ d) < plen)%nat ->
  ReadFull c plen = Some (buf, err, c') ->
  buf = concat chunks ++ d
  /\ err = if (0 <? length buf)%nat && is_EOF (Some e)
           then Some ErrUnexpectedEOF else Some e.
Proof.
  intros Hs Hlen HF. rewrite length_app in Hlen.
  unfold ReadFull, ReadAtLeast in HF. rewrite Nat.ltb_irrefl in HF.
  destruct (ReadAtLeast_loop (S (length (script c))) c plen plen [] None)
    as [[[b e'] cb]|] eqn:HL; [| discriminate].
  assert (Hlen0 : (length (@nil byte) + length (concat chunks) + length d < plen)%nat)
    by (simpl; lia).
  destruct (ReadAtLeast_loop_broken _ c _ [] _ _ chunks d e rest Hs Hlen0 HL)
    as (Hb & ->).
  simpl in Hb. subst b.
  assert (Hshort : (plen <=? length (concat chunks ++ d))%nat = false)
    by (apply Nat.leb_gt; rewrite length_app; lia).
  rewrite Hshort in HF.
  destruct ((0 <? length (concat chunks ++ d))%nat && is_EOF (Some e)) eqn:Hmap;
    inversion HF; subst; rewrite Hmap; auto.
Qed.

End ReadFullHead.

(** C3: on an open reader with an opener and a valid offset, [ReadAt] calls
    the opener once, at that offset.  When the opener gives a connection,
    [ReadAt] returns; what it did to the transport is that call of the
    opener followed by the close of that very connection (and the log entry
    when the close fails), and the reader is what it was.  The result
    carries no error exactly when the buffer was filled, and the bytes are
    the head of that connection's stream: the first [len(p)] of them, with
    no error, whenever the stream delivers that many before any error; all
    of them, with [io.ErrUnexpectedEOF] ([io.EOF] when there is none), when
    the stream ends cleanly before; all those before the error, with that
    error ([io.EOF] after some bytes becoming [io.ErrUnexpectedEOF]), when
    the stream breaks before.  When the opener fails there is no connection
    and the failure is returned. *)
Theorem ReadAt_private_connection (h : httpReadSeeker) (plen : nat) (off : Z)
    (w : World) (f : Opener) :
  closed h = false -> 0 <= off -> (size h = -1 \/ off < size h) ->
  open h = Some f ->
  (forall body cerr,
      f (count_opens w) off = OpenOk body cerr ->
      exists buf err,
        ReadAt h plen off w =
          Some (h,
                w ++ EvOpen (count_opens w) off
                     :: EvClose (Opened (count_opens w))
                     :: match cerr with
                        | Some e =>
                            [EvLog "httpReadSeeker.ReadAt: failed to close ReadCloser" e]
                        | None => []
                        end,
                (buf, err))
        /\ (err = None <-> length buf = plen)
        /\ buf = firstn (length buf) (script_data body)
        /\ (forall chunks rest,
              body = clean chunks ++ rest ->
              (plen <= length (concat chunks))%nat ->
              buf = firstn plen (concat chunks) /\ err = None)
        /\ (forall chunks,
              body = clean chunks ->
              (length (concat chunks) < plen)%nat ->
              buf = concat chunks
              /\ err = match concat chunks with
                       | [] => Some EOF
                       | _ :: _ => Some ErrUnexpectedEOF
                       end)
        /\ (forall chunks d e rest,
              body = clean chunks ++ (d, Some e) :: rest ->
              (length (concat chunks ++ d) < plen)%nat ->
              buf = concat chunks ++ d
              /\ err = if (0 <? length buf)%nat && is_EOF (Some e)
                       then Some ErrUnexpectedEOF else Some e))
  /\ (forall e,
        f (count_opens w) off = OpenErr e ->
        ReadAt h plen off w =
          Some (h, w ++ [EvOpen (count_opens w) off],
                ([], Some (Errorf "httpReadSeeker.ReadAt: failed to open at offset %d: %w"
                             [off] e)))).
Proof.
  intros Hc Hp Hs Ho.
  assert (Hg : negb (size h =? -1) && (size h <=? off) = false).
  { destruct Hs as [Hs | Hs].
    - rewrite Hs. reflexivity.
    - apply Z.leb_gt in Hs. rewrite Hs. apply andb_false_r. }
  apply Z.ltb_ge in Hp.
  split.
  - intros body cerr Hf.
    set (c := mkConn (Opened (count_opens w)) body cerr).
    destruct (ReadFull_spec plen c) as (buf & err & c' & HF & Hiff & Hid & Hce & Hpre).
    exists buf, err.
    split; [| split; [exact Hiff | split; [exact Hpre | split; [| split]]]].
    + unfold ReadAt, call_open. rewrite Hc, Hp, Hg, Ho, Hf. fold c. rewrite HF.
      rewrite (close_logged_same _ c c' _ Hid Hce), close_logged_events.
      now rewrite <- app_assoc.
    + intros chunks rest Hb Hlen.
      exact (ReadFull_enough plen c c' chunks rest buf err Hb Hlen HF).
    + intros chunks Hb Hlen.
      destruct (ReadFull_clean plen c chunks Hb) as (c2 & HF2 & _).
      rewrite HF in HF2. injection HF2 as -> -> _.
      assert (Hgt : (plen <=? length (concat chunks))%nat = false)
        by (apply Nat.leb_gt; exact Hlen).
      rewrite Hgt. split; [| reflexivity]. apply firstn_all2. lia.
    + intros chunks d e rest Hb Hlen.
      exact (ReadFull_broken plen c c' chunks d e rest buf err Hb Hlen HF).
  - intros e Hf. unfold ReadAt, call_open. now rewrite Hc, Hp, Hg, Ho, Hf.
Qed.

Lemma ReadAt_private_connection_witness :
  ReadAt ex_held 10 20 ex_held_world =
    Some (ex_held, [EvOpen 0 0; EvOpen 1 20; EvClose (Opened 1)],
          (map byte_of (seq 20 10), None))
  /\ ReadAt ex_held 10 95 ex_held_world =
       Some (ex_held, [EvOpen 0 0; EvOpen 1 95; EvClose (Opened 1)],
             (map byte_of (seq 95 5), Some ErrUnexpectedEOF))
  /\ ReadAt ex_bad_close 8 0 [] =
       Some (ex_bad_close,
             [EvOpen 0 0; EvClose (Opened 0);
              EvLog "httpReadSeeker.ReadAt: failed to close ReadCloser"
                (ErrOther "close failed")],
             (map byte_of [0; 1; 0]%nat, Some ErrUnexpectedEOF)).
Proof.
  assert (Hsz : forall o, o < 100 -> size ex_held = -1 \/ o < size ex_held)
    by (intros o Ho; right; exact Ho).
  split; [| split].
  - destruct (ReadAt_private_connection ex_held 10 20 ex_held_world
                (stream_opener (ramp 100)) eq_refl ltac:(lia) (Hsz 20 ltac:(lia))
                eq_refl) as (Hok & _).
    destruct (Hok (body_from (ramp 100) 20) None eq_refl)
      as (buf & err & HR & _ & _ & Hfull & _).
    destruct (Hfull (chunks_from (ramp 100) 20) [])
      as (Hb & He); [vm_compute; reflexivity | vm_compute; lia |].
    rewrite HR, Hb, He. vm_compute. reflexivity.
  - destruct (ReadAt_private_connection ex_held 10 95 ex_held_world
                (stream_opener (ramp 100)) eq_refl ltac:(lia) (Hsz 95 ltac:(lia))
                eq_refl) as (Hok & _).
    destruct (Hok (body_from (ramp 100) 95) None eq_refl)
      as (buf & err & HR & _ & _ & _ & Hshort & _).
    destruct (Hshort (chunks_from (ramp 100) 95))
      as (Hb & He); [vm_compute; reflexivity | vm_compute; lia |].
    rewrite HR, Hb, He. vm_compute. reflexivity.
  - destruct (ReadAt_private_connection ex_bad_close 8 0 []
                (fun _ _ => OpenOk (broken [ramp 2] (ramp 1))
                              (Some (ErrOther "close failed")))
                eq_refl ltac:(lia) (or_introl eq_refl) eq_refl) as (Hok & _).
    destruct (Hok (broken [ramp 2] (ramp 1)) (Some (ErrOther "close failed")) eq_refl)
      as (buf & err & HR & _ & _ & _ & _ & Hbroken).
    destruct (Hbroken [ramp 2] (ramp 1) ErrUnexpectedEOF [])
      as (Hb & He); [reflexivity | vm_compute; lia |].
    rewrite HR, He, Hb. vm_compute. reflexivity.
Defined.

(** ** ReadAt on a healthy connection *)

(** X7: random access to a healthy stream.  When the opener answers with a
    connection that delivers its bytes without error, [ReadAt] returns the
    first [len(p)] of them with no error if there are that many; if the
    stream is shorter it returns all of it with [io.ErrUnexpectedEOF], or
    [io.EOF] when there is not a single byte.  Either way the connection is
    opened, closed and forgotten. *)
Theorem ReadAt_healthy_stream (h : httpReadSeeker) (plen : nat) (off : Z)
    (w : World) (f : Opener) (chunks : list (list byte)) (cerr : option error) :
  closed h = false -> 0 <= off -> (size h = -1 \/ off < size h) ->
  open h = Some f ->
  f (count_opens w) off = OpenOk (clean chunks) cerr ->
  ReadAt h plen off w =
    Some (h,
          close_logged "httpReadSeeker.ReadAt: failed to close ReadCloser"
            (mkConn (Opened (count_opens w)) (clean chunks) cerr)
            (w ++ [EvOpen (count_opens w) off]),
          (firstn plen (concat chunks),
           if (plen <=? length (concat chunks))%nat then None
           else match concat chunks with
                | [] => Some EOF
                | _ :: _ => Some ErrUnexpectedEOF
                end)).
Proof.
  intros Hc Hp Hs Ho Hf.
  assert (Hg : negb (size h =? -1) && (size h <=? off) = false).
  { destruct Hs as [Hs | Hs].
    - rewrite Hs. reflexivity.
    - apply Z.leb_gt in Hs. rewrite Hs. apply andb_false_r. }
  apply Z.ltb_ge in Hp.
  destruct (ReadFull_clean plen (mkConn (Opened (count_opens w)) (clean chunks) cerr)
              chunks eq_refl) as (c' & HF & Hid & Hce).
  unfold ReadAt, call_open. rewrite Hc, Hp, Hg, Ho, Hf, HF.
  now rewrite (close_logged_same _ _ _ _ Hid Hce).
Qed.

Lemma ReadAt_healthy_stream_witness :
  ReadAt ex_held 10 95 ex_held_world =
    Some (ex_held,
          ex_held_world ++ [EvOpen 1 95; EvClose (Opened 1)],
          (map byte_of (seq 95 5), Some ErrUnexpectedEOF))
  /\ ReadAt ex_held 10 20 ex_held_world =
       Some (ex_held,
             ex_held_world ++ [EvOpen 1 20; EvClose (Opened 1)],
             (map byte_of (seq 20 10), None)).
Proof.
  split.
  - apply (ReadAt_healthy_stream ex_held 10 95 ex_held_world
             (stream_opener (ramp 100)) (chunks_from (ramp 100) 95) None);
      try reflexivity; [lia | right; reflexivity].
  - apply (ReadAt_healthy_stream ex_held 10 20 ex_held_world
             (stream_opener (ramp 100)) (chunks_from (ramp 100) 20) None);
      try reflexivity; [lia | right; reflexivity].
Defined.

(** ** Sequential and random access agree *)

Lemma ReadAtLeast_loop_extends (plen min fuel : nat) :
  forall (r r' : Conn) (buf buf' : list byte) (err err' : option error),
    ReadAtLeast_loop fuel r plen min buf err = Some (buf', err', r') ->
    exists rest, buf' = buf ++ rest.
Proof.
  induction fuel as [|fuel IH]; intros r r' buf buf' err err' HL; simpl in HL;
    destruct ((length buf <? min)%nat && is_nil err);
    try discriminate;
    try (inversion HL; subst; exists []; now rewrite app_nil_r).
  destruct (conn_read r (plen - length buf)) as [[d e] r1].
  destruct (IH _ _ _ _ _ _ HL) as (rest & ->).
  exists (d ++ rest). now rewrite app_assoc.
Qed.

(** What [io.ReadFull] returns starts with what a single read of the same
    buffer on the same connection returns. *)
Lemma ReadFull_starts_with_read (c c1 cA : Conn) (plen : nat)
    (d bufA : list byte) (e errA : option error) :
  conn_read c plen = (d, e, c1) ->
  ReadFull c plen = Some (bufA, errA, cA) ->
  exists rest, bufA = d ++ rest.
Proof.
  intros Hcr HF. unfold ReadFull, ReadAtLeast in HF.
  rewrite Nat.ltb_irrefl in HF.
  destruct (ReadAtLeast_loop (S (length (script c))) c plen plen [] None)
    as [[[b eb] cb]|] eqn:HL; [| discriminate].
  assert (Hb : bufA = b).
  { destruct (plen <=? length b)%nat; [now inversion HF|].
    destruct ((0 <? length b)%nat && is_EOF eb); now inversion HF. }
  subst bufA. clear HF.
  destruct plen as [|p].
  - destruct (conn_read_same _ _ _ _ _ Hcr) as (_ & _ & Hlen).
    destruct d; [| simpl in Hlen; lia]. now exists b.
  - cbn [ReadAtLeast_loop] in HL.
    change ((length (@nil byte) <? S p)%nat && is_nil None) with true in HL.
    cbn iota in HL. change (S p - length (@nil byte))%nat with (S p) in HL.
    rewrite Hcr in HL.
    destruct (ReadAtLeast_loop_extends _ _ _ _ _ _ _ _ _ HL) as (rest & ->).
    now exists rest.
Qed.

Lemma Read_data (h h1 : httpReadSeeker) (plen : nat) (w w1 : World)
    (rd rd' : Conn) (d : list byte) (e : option error) :
  closed h = false ->
  reader h w = (h1, w1, inl rd) ->
  conn_read rd plen = (d, e, rd') ->
  fst (snd (Read h plen w)) = d.
Proof.
  intros Hc Hr Hcr.
  destruct (Read_open_ok _ _ _ _ _ _ _ _ _ Hc Hr Hcr)
    as (h2 & w2 & e2 & HR & _).
  now rewrite HR.
Qed.

(** X8: sequential and random access see the same stream.  On an open
    reader, for a valid position [o] that is not where a held connection
    already stands, [Seek(o, start)] followed by [Read(p)] and
    [ReadAt(p, o)] put the same question to the opener, and when it gives a
    connection the bytes of the [Read] are the first bytes of the
    [ReadAt]. *)
Theorem Seek_Read_agrees_with_ReadAt (h : httpReadSeeker) (plen : nat) (o : Z)
    (w : World) (f : Opener) (body : list Response) (cerr : option error) :
  closed h = false -> open h = Some f ->
  0 <= o -> (size h = -1 \/ o < size h) ->
  (rc h = None \/ o <> offset h) ->
  f (count_opens w) o = OpenOk body cerr ->
  exists h1 w1 h2 w2 dR eR wA dA eA rest,
    Seek h o SeekStart w = (h1, w1, (o, None))
    /\ Read h1 plen w1 = (h2, w2, (dR, eR))
    /\ extends (w1 ++ [EvOpen (count_opens w) o]) w2
    /\ ReadAt h plen o w = Some (h, wA, (dA, eA))
    /\ extends (w ++ [EvOpen (count_opens w) o]) wA
    /\ dA = dR ++ rest.
Proof.
  intros Hc Ho Hp Hs Hpos Hf.
  (* the seek *)
  assert (HS : exists h1 w1,
             Seek h o SeekStart w = (h1, w1, (o, None))
             /\ closed h1 = false /\ rc h1 = None /\ open h1 = Some f
             /\ size h1 = size h /\ offset h1 = o
             /\ count_opens w1 = count_opens w).
  { destruct (Seek_at h o SeekStart w o Hc eq_refl) as (_ & Hsame & Hmove).
    destruct (Z.eq_dec o (offset h)) as [Heq | Hne].
    - destruct Hpos as [Hr | Hne]; [| contradiction].
      exists h, w. rewrite (Hsame Hp Heq). auto 10.
    - eexists. eexists. rewrite (Hmove Hp Hne). simpl.
      repeat split; auto.
      destruct (rc h); [apply count_opens_close_logged | reflexivity]. }
  destruct HS as (h1 & w1 & HSeek & Hc1 & Hr1 & Ho1 & Hsz1 & Hoff1 & Hcnt).
  (* the sequential read *)
  assert (Hs1 : size h1 = -1 \/ offset h1 < size h1) by (rewrite Hsz1, Hoff1; exact Hs).
  pose proof (reader_opens h1 w1 f Hr1 Ho1 Hs1) as Hrd.
  rewrite Hcnt, Hoff1, Hf in Hrd. simpl in Hrd.
  destruct (conn_read (mkConn (Opened (count_opens w)) body cerr) plen)
    as [[dR e0] cR] eqn:Hcr.
  destruct (Read_open_ok _ _ _ _ _ _ _ _ _ Hc1 Hrd Hcr)
    as (h2 & w2 & eR & HR & _ & _ & _ & _ & _ & _ & _ & _ & Hext).
  (* the random-access read *)
  destruct (ReadFull_spec plen (mkConn (Opened (count_opens w)) body cerr))
    as (dA & eA & cA & HF & _).
  destruct (ReadFull_starts_with_read _ _ _ _ _ _ _ _ Hcr HF) as (rest & Hpre).
  assert (Hg : negb (size h =? -1) && (size h <=? o) = false).
  { destruct Hs as [Hs | Hs].
    - rewrite Hs. reflexivity.
    - apply Z.leb_gt in Hs. rewrite Hs. apply andb_false_r. }
  exists h1, w1, h2, w2, dR, eR.
  exists (close_logged "httpReadSeeker.ReadAt: failed to close ReadCloser" cA
            (w ++ [EvOpen (count_opens w) o])), dA, eA, rest.
  split; [exact HSeek | split; [exact HR | split; [exact Hext |]]].
  split; [| split; [apply extends_close_logged | exact Hpre]].
  unfold ReadAt, call_open. apply Z.ltb_ge in Hp.
  now rewrite Hc, Hp, Hg, Ho, Hf, HF.
Qed.

Lemma Seek_Read_agrees_with_ReadAt_witness :
  exists h1 w1 h2 w2 dR eR wA dA eA rest,
    Seek ex_held 20 SeekStart ex_held_world = (h1, w1, (20, None))
    /\ Read h1 4 w1 = (h2, w2, (dR, eR))
    /\ extends (w1 ++ [EvOpen 1 20]) w2
    /\ ReadAt ex_held 4 20 ex_held_world = Some (ex_held, wA, (dA, eA))
    /\ extends (ex_held_world ++ [EvOpen 1 20]) wA
    /\ dA = dR ++ rest.
Proof.
  apply (Seek_Read_agrees_with_ReadAt ex_held 4 20 ex_held_world
           (stream_opener (ramp 100)) (body_from (ramp 100) 20) None);
    try reflexivity.
  - lia.
  - right; reflexivity.
  - right; discriminate.
Defined.

(** ** Seeks that change nothing *)

(** X9: an absolute seek is idempotent, and a relative seek by zero tells
    the position.  Repeating [Seek(off, start)] or [Seek(off, end)] returns
    what the first call returned and touches neither reader nor transport;
    [Seek(0, current)] on an open reader returns the offset and keeps the
    connection. *)
Theorem Seek_fixed_points (h : httpReadSeeker) (off whence : Z) (w : World) :
  (whence = SeekStart \/ whence = SeekEnd ->
   forall h1 w1 r,
     Seek h off whence w = (h1, w1, r) ->
     Seek h1 off whence w1 = (h1, w1, r))
  /\ (closed h = false -> 0 <= offset h -> in_int64 (offset h) ->
      Seek h 0 SeekCurrent w = (h, w, (offset h, None))).
Proof.
  split.
  - intros Hw h1 w1 r HS.
    assert (Habs : forall hx, size hx = size h ->
                     seek_abs hx off whence = seek_abs h off whence).
    { intros hx Hsz. unfold seek_abs. rewrite Hsz.
      destruct Hw as [-> | ->]; reflexivity. }
    unfold Seek in HS. destruct (closed h) eqn:Hc.
    { inversion HS; subst. unfold Seek. now rewrite Hc. }
    destruct (seek_abs h off whence) as [abs|e] eqn:Ha.
    2:{ inversion HS; subst. unfold Seek. now rewrite Hc, Ha. }
    destruct (abs <? 0) eqn:Hneg.
    { inversion HS; subst. unfold Seek. now rewrite Hc, Ha, Hneg. }
    destruct (negb (abs =? offset h)) eqn:Hne.
    + destruct (release "Fetcher.Seek: failed to close ReadCloser" h w)
        as [hr wr] eqn:Hrel.
      destruct (release_fields _ _ _ _ _ Hrel) as (Hsz & _ & _ & Hcl & _).
      inversion HS; subst. unfold Seek.
      replace (closed (set_offset abs hr)) with false by (simpl; congruence).
      rewrite (Habs (set_offset abs hr) Hsz), Hneg.
      change (offset (set_offset abs hr)) with abs.
      now rewrite Z.eqb_refl.
    + inversion HS; subst. unfold Seek. now rewrite Hc, Ha, Hneg, Hne.
  - intros Hc Hp Hin.
    destruct (Seek_at h 0 SeekCurrent w (offset h) Hc) as (_ & Hsame & _).
    + unfold seek_abs. simpl. now rewrite add64_0_r.
    + now apply Hsame.
Qed.

Lemma Seek_fixed_points_witness :
  Seek (fst (fst (Seek ex_held 20 SeekStart ex_held_world))) 20 SeekStart
       (snd (fst (Seek ex_held 20 SeekStart ex_held_world)))
  = Seek ex_held 20 SeekStart ex_held_world
  /\ Seek ex_held 0 SeekCurrent ex_held_world = (ex_held, ex_held_world, (10, None)).
Proof.
  destruct (Seek_fixed_points ex_held 20 SeekStart ex_held_world) as (Hidem & _).
  destruct (Seek_fixed_points ex_held 0 SeekCurrent ex_held_world) as (_ & Htell).
  split.
  - apply (Hidem (or_introl eq_refl) _ _ (20, None)). reflexivity.
  - apply Htell; [reflexivity | vm_compute; discriminate
                 | vm_compute; split; discriminate].
Defined.

(** ** Programs of calls: what never changes *)

Lemma Read_frame (h h' : httpReadSeeker) (plen : nat) (w w' : World)
    (r : ReadResult) :
  Read h plen w = (h', w', r) ->
  size h' = size h /\ open h' = open h /\ closed h' = closed h /\ extends w w'.
Proof.
  intros HR. destruct (closed h) eqn:Hc.
  - rewrite (Read_closed _ _ _ Hc) in HR. inversion HR; subst.
    auto using extends_refl.
  - destruct (reader h w) as [[h1 w1] [rd|e]] eqn:Hr.
    + destruct (conn_read rd plen) as [[d e] rd'] eqn:Hcr.
      destruct (Read_open_ok _ _ _ _ _ _ _ _ _ Hc Hr Hcr)
        as (h2 & w2 & e2 & HR2 & _ & Hcl & Hsz & Hop & _ & _ & _ & _ & Hext).
      rewrite HR2 in HR. inversion HR; subst.
      repeat split; auto.
      eapply extends_trans; [eapply extends_reader; exact Hr | exact Hext].
    + rewrite (Read_no_reader _ _ _ _ _ _ Hc Hr) in HR.
      destruct (reader_err_same _ _ _ _ _ Hr) as (-> & _).
      inversion HR; subst. repeat split; auto.
      eapply extends_reader; exact Hr.
Qed.

Lemma ReadAt_returns (h : httpReadSeeker) (plen : nat) (off : Z) (w : World) :
  exists w' r, ReadAt h plen off w = Some (h, w', r) /\ extends w w'.
Proof.
  unfold ReadAt, call_open.
  destruct (closed h); [eauto using extends_refl|].
  destruct (off <? 0); [eauto using extends_refl|].
  destruct (negb (size h =? -1) && (size h <=? off)); [eauto using extends_refl|].
  destruct (open h) as [f|]; [| eauto using extends_refl].
  destruct (f (count_opens w) off) as [body cerr|e];
    [| eauto using extends_app].
  destruct (ReadFull_spec plen (mkConn (Opened (count_opens w)) body cerr))
    as (buf & err & c' & HF & _).
  rewrite HF. do 2 eexists. split; [reflexivity|].
  eapply extends_trans; [apply extends_app | apply extends_close_logged].
Qed.

Lemma Seek_frame (h h' : httpReadSeeker) (off whence : Z) (w w' : World)
    (r : Z * option error) :
  Seek h off whence w = (h', w', r) ->
  size h' = size h /\ open h' = open h /\ closed h' = closed h
  /\ errsWithNoProgress h' = errsWithNoProgress h /\ extends w w'.
Proof.
  unfold Seek. destruct (closed h) eqn:Hc.
  { intros H; inversion H; subst; auto 10 using extends_refl. }
  destruct (seek_abs h off whence) as [abs|e];
    [| intros H; inversion H; subst; auto 10 using extends_refl].
  destruct (abs <? 0); [intros H; inversion H; subst; auto 10 using extends_refl|].
  destruct (negb (abs =? offset h));
    [| intros H; inversion H; subst; auto 10 using extends_refl].
  destruct (release "Fetcher.Seek: failed to close ReadCloser" h w)
    as [hr wr] eqn:Hrel.
  destruct (release_fields _ _ _ _ _ Hrel) as (Hsz & _ & Hop & Hcl & He & _).
  intros H; inversion H; subst. simpl. repeat split; try congruence.
  unfold release in Hrel. destruct (rc h); inversion Hrel; subst;
    auto using extends_refl, extends_close_logged.
Qed.

Lemma Close_frame (h h' : httpReadSeeker) (w w' : World) (e : option error) :
  Close h w = (h', w', e) ->
  size h' = size h /\ open h' = open h /\ offset h' = offset h
  /\ rc h' = rc h /\ errsWithNoProgress h' = errsWithNoProgress h
  /\ extends w w'.
Proof.
  unfold Close. destruct (closed h).
  { intros H; inversion H; subst; auto 10 using extends_refl. }
  simpl. destruct (rc h) eqn:Hr; intros H; inversion H; subst; simpl;
    repeat (split; [reflexivity|]); repeat split;
    auto using extends_refl, extends_app.
Qed.

Lemma apply_op_frame (o : Op) (h : httpReadSeeker) (w : World) :
  exists h' w',
    apply_op o h w = Some (h', w')
    /\ size h' = size h /\ open h' = open h /\ extends w w'
    /\ (closed h = true -> h' = h /\ w' = w).
Proof.
  destruct o as [plen | plen off | off whence |]; simpl.
  - destruct (Read h plen w) as [[h' w'] r] eqn:HR.
    destruct (Read_frame _ _ _ _ _ _ HR) as (Hsz & Hop & _ & Hext).
    exists h', w'.
    split; [reflexivity | split; [exact Hsz | split; [exact Hop | split; [exact Hext |]]]].
    intros Hc. rewrite (Read_closed _ _ _ Hc) in HR. now inversion HR.
  - destruct (ReadAt_returns h plen off w) as (w' & r & HR & Hext).
    rewrite HR. exists h, w'.
    split; [reflexivity | split; [reflexivity | split; [reflexivity | split; [exact Hext |]]]].
    intros Hc. now destruct (ReadAt_same_reader _ _ _ _ _ _ _ HR) as (_ & ->).
  - destruct (Seek h off whence w) as [[h' w'] r] eqn:HS.
    destruct (Seek_frame _ _ _ _ _ _ _ HS) as (Hsz & Hop & _ & _ & Hext).
    exists h', w'.
    split; [reflexivity | split; [exact Hsz | split; [exact Hop | split; [exact Hext |]]]].
    intros Hc. pose proof (Seek_closed h off whence w Hc) as Hf.
    rewrite HS in Hf. now inversion Hf.
  - destruct (Close h w) as [[h' w'] e] eqn:HC.
    destruct (Close_frame _ _ _ _ _ HC) as (Hsz & Hop & _ & _ & _ & Hext).
    exists h', w'.
    split; [reflexivity | split; [exact Hsz | split; [exact Hop | split; [exact Hext |]]]].
    intros Hc. unfold Close in HC. rewrite Hc in HC. now inversion HC.
Qed.

(** X11: a closed reader is inert.  No program of calls changes it or
    reaches the transport: nothing is opened, read, closed or logged. *)
Theorem run_closed_is_inert (ops : list Op) (h : httpReadSeeker) (w : World) :
  closed h = true -> run ops h w = Some (h, w).
Proof.
  intros Hc. induction ops as [|o ops IH]; [reflexivity|].
  destruct (apply_op_frame o h w) as (h1 & w1 & Ha & _ & _ & _ & Hin).
  destruct (Hin Hc) as (-> & ->). simpl. now rewrite Ha.
Qed.

Lemma run_closed_is_inert_witness :
  run ex_program ex_closed (ex_held_world ++ [EvClose (Opened 0)])
  = Some (ex_closed, ex_held_world ++ [EvClose (Opened 0)]).
Proof.
  apply (run_closed_is_inert ex_program ex_closed). reflexivity.
Defined.

(** ** Ownership of connections *)

Lemma closes_app (w1 w2 : World) : closes (w1 ++ w2) = closes w1 ++ closes w2.
Proof. unfold closes. apply flat_map_app. Qed.

Lemma closes_close_logged (msg : string) (c : Conn) (w : World) :
  closes (close_logged msg c w)
  = closes w ++ match conn_id c with Opened i => [i] | Synthetic => [] end.
Proof.
  unfold close_logged. destruct (close_err c); repeat rewrite closes_app;
    simpl; destruct (conn_id c); simpl; now rewrite ?app_nil_r.
Qed.

Lemma In_open_close_logged (msg : string) (c : Conn) (w : World) (i : nat) (off : Z) :
  In (EvOpen i off) (close_logged msg c w) -> In (EvOpen i off) w.
Proof.
  unfold close_logged. destruct (close_err c); repeat rewrite in_app_iff; simpl;
    intuition discriminate.
Qed.

Ltac split6 := split; [| split; [| split; [| split; [| split]]]].

Lemma owned_held_iff (h h' : httpReadSeeker) (w : World) :
  (forall i, held h' i <-> held h i) ->
  closed h' = closed h -> open h' = open h ->
  owned h w -> owned h' w.
Proof.
  intros Hh Hc Ho (Hcl & Hheld & Hnd & Hopen & Hshut & Hleak).
  unfold owned, refused. rewrite Hc, Ho.
  split6; auto.
  - intros i Hi. apply Hheld. now apply Hh.
  - intros Hf i Hi. apply Hopen; [exact Hf | now apply Hh].
  - intros Ht i Hi. apply Hshut; [exact Ht | now apply Hh].
  - intros i off Hin. destruct (Hleak i off Hin) as [Hr | [Hx | Hx]]; auto.
    right; right. now apply Hh.
Qed.

(** The raw read changes the connection, not which connection it is. *)
Lemma owned_after_read (h : httpReadSeeker) (w : World) (c c' : Conn) :
  rc h = Some c -> conn_id c' = conn_id c ->
  owned h w -> owned (set_rc (Some c') h) w.
Proof.
  intros Hr Hid. apply owned_held_iff; try reflexivity.
  intros i. unfold held. simpl. split.
  - intros (x & Hx & Hi). inversion Hx; subst. exists c. split; congruence.
  - intros (x & Hx & Hi). exists c'. split; congruence.
Qed.

(** Closing the held connection and clearing the field. *)
Lemma owned_release (msg : string) (h : httpReadSeeker) (w : World) (c : Conn) :
  closed h = false -> rc h = Some c ->
  owned h w -> owned (set_rc None h) (close_logged msg c w).
Proof.
  intros Hc Hr (Hcl & Hheld & Hnd & Hopen & Hshut & Hleak).
  assert (Hnone : forall i, ~ held (set_rc None h) i).
  { intros i (x & Hx & _). discriminate Hx. }
  assert (Hc_held : forall i, conn_id c = Opened i -> held h i).
  { intros i Hi. now exists c. }
  unfold owned. rewrite closes_close_logged, count_opens_close_logged.
  split6.
  - intros i Hi. apply in_app_or in Hi as [Hi | Hi]; [now apply Hcl|].
    destruct (conn_id c) as [j|] eqn:Hid; [| contradiction].
    destruct Hi as [<- | []]. now apply Hheld, Hc_held.
  - intros i Hi. now elim (Hnone i).
  - destruct (conn_id c) as [j|] eqn:Hid; [| now rewrite app_nil_r].
    apply NoDup_app; [exact Hnd | repeat constructor; intros [] |].
    intros i Hi [<- | []]. exact (Hopen Hc j (Hc_held j eq_refl) Hi).
  - intros _ i Hi. now elim (Hnone i).
  - intros _ i Hi. now elim (Hnone i).
  - intros i off Hin. apply In_open_close_logged in Hin.
    destruct (Hleak i off Hin) as [Hr0 | [Hx | (x & Hx & Hi)]].
    + now left.
    + right; left. apply in_or_app. now left.
    + right; left. apply in_or_app. right.
      rewrite Hr in Hx. inversion Hx; subst. rewrite Hi. now left.
Qed.

(** The opener gives a connection to an open reader that holds none. *)
Lemma owned_open_ok (h : httpReadSeeker) (w : World) (off : Z)
    (body : list Response) (cerr : option error) :
  closed h = false -> rc h = None ->
  owned h w ->
  owned (set_rc (Some (mkConn (Opened (count_opens w)) body cerr)) h)
        (w ++ [EvOpen (count_opens w) off]).
Proof.
  intros Hc Hr (Hcl & Hheld & Hnd & Hopen & Hshut & Hleak).
  assert (Hnew : forall i,
             held (set_rc (Some (mkConn (Opened (count_opens w)) body cerr)) h) i
             -> i = count_opens w).
  { intros i (x & Hx & Hi). inversion Hx; subst. simpl in Hi. congruence. }
  assert (Hold : forall i, ~ held h i).
  { intros i (x & Hx & _). rewrite Hr in Hx. discriminate. }
  unfold owned. rewrite closes_app, count_opens_snoc_open. simpl.
  rewrite app_nil_r. split6.
  - intros i Hi. apply Hcl in Hi. lia.
  - intros i Hi. apply Hnew in Hi. lia.
  - exact Hnd.
  - intros _ i Hi Hin. apply Hnew in Hi. subst i. apply Hcl in Hin. lia.
  - intros Ht. simpl in Ht. congruence.
  - intros i o Hin. apply in_app_or in Hin as [Hin | [Heq | []]].
    + destruct (Hleak i o Hin) as [Hr0 | [Hx | Hx]]; auto.
      now elim (Hold i).
    + inversion Heq; subst. right; right.
      eexists. split; reflexivity.
Qed.

(** The opener refuses. *)
Lemma owned_open_err (h : httpReadSeeker) (w : World) (f : Opener) (off : Z)
    (e : error) :
  open h = Some f -> f (count_opens w) off = OpenErr e ->
  owned h w -> owned h (w ++ [EvOpen (count_opens w) off]).
Proof.
  intros Ho Hf (Hcl & Hheld & Hnd & Hopen & Hshut & Hleak).
  unfold owned. rewrite closes_app, count_opens_snoc_open. simpl.
  rewrite app_nil_r. split6; auto.
  - intros i Hi. apply Hcl in Hi. lia.
  - intros i Hi. apply Hheld in Hi. lia.
  - intros i o Hin. apply in_app_or in Hin as [Hin | [Heq | []]]; auto.
    inversion Heq; subst. left. now exists f, e.
Qed.

(** The synthetic stream is nobody's connection. *)
Lemma owned_synthetic (h : httpReadSeeker) (w : World) :
  rc h = None -> owned h w -> owned (set_rc (Some empty_reader) h) w.
Proof.
  intros Hr. apply owned_held_iff; try reflexivity.
  intros i. unfold held. simpl. split.
  - intros (x & Hx & Hi). inversion Hx; subst. discriminate Hi.
  - intros (x & Hx & _). rewrite Hr in Hx. discriminate.
Qed.

(** A connection of [ReadAt]: opened, used and closed within the call. *)
Lemma owned_private (msg : string) (h : httpReadSeeker) (w : World) (off : Z)
    (c' : Conn) :
  closed h = false -> conn_id c' = Opened (count_opens w) ->
  owned h w ->
  owned h (close_logged msg c' (w ++ [EvOpen (count_opens w) off])).
Proof.
  intros Hc Hid (Hcl & Hheld & Hnd & Hopen & Hshut & Hleak).
  unfold owned.
  rewrite closes_close_logged, count_opens_close_logged, closes_app,
    count_opens_snoc_open, Hid.
  simpl. rewrite app_nil_r. split6.
  - intros i Hi. apply in_app_or in Hi as [Hi | [<- | []]];
      [apply Hcl in Hi |]; lia.
  - intros i Hi. apply Hheld in Hi. lia.
  - apply NoDup_app; [exact Hnd | repeat constructor; intros [] |].
    intros i Hi [<- | []]. apply Hcl in Hi. lia.
  - intros _ i Hi Hin. apply in_app_or in Hin as [Hin | [<- | []]].
    + exact (Hopen Hc i Hi Hin).
    + apply Hheld in Hi. lia.
  - intros Ht. congruence.
  - intros i o Hin. apply In_open_close_logged in Hin.
    apply in_app_or in Hin as [Hin | [Heq | []]].
    + destruct (Hleak i o Hin) as [Hr0 | [Hx | Hx]]; auto.
      right; left. apply in_or_app. now left.
    + inversion Heq; subst. right; left. apply in_or_app. right. now left.
Qed.

(** [Close]: the flag is set and the held connection closed, the field
    staying as it is. *)
Lemma owned_Close (h : httpReadSeeker) (w : World) :
  closed h = false -> owned h w ->
  owned (set_closed true h)
        match rc h with Some c => w ++ [EvClose (conn_id c)] | None => w end.
Proof.
  intros Hc (Hcl & Hheld & Hnd & Hopen & Hshut & Hleak).
  assert (Hh : forall i, held (set_closed true h) i <-> held h i)
    by (intros i; reflexivity).
  destruct (rc h) as [c|] eqn:Hr.
  - unfold owned. rewrite closes_app, count_opens_app.
    change (count_opens [EvClose (conn_id c)]) with 0%nat.
    rewrite Nat.add_0_r. unfold refused. simpl open.
    assert (Hc_id : forall i, held h i -> conn_id c = Opened i).
    { intros i (x & Hx & Hi). congruence. }
    split6.
    + intros i Hi. apply in_app_or in Hi as [Hi | Hi]; [now apply Hcl|].
      simpl in Hi. destruct (conn_id c) as [j|] eqn:Hid; [| contradiction].
      destruct Hi as [<- | []]. apply Hheld. now exists c.
    + intros i Hi. now apply Hheld.
    + simpl. destruct (conn_id c) as [j|] eqn:Hid; [| now rewrite app_nil_r].
      apply NoDup_app; [exact Hnd | repeat constructor; intros [] |].
      intros i Hi [<- | []]. apply (Hopen Hc j); [now exists c | exact Hi].
    + intros Hf. simpl in Hf. discriminate Hf.
    + intros _ i Hi. apply in_or_app. right. simpl.
      rewrite (Hc_id i Hi). now left.
    + intros i o Hin. apply in_app_or in Hin as [Hin | [Heq | []]];
        [| discriminate Heq].
      destruct (Hleak i o Hin) as [Hr0 | [Hx | Hx]]; auto.
      right; left. apply in_or_app. now left.
  - unfold owned, refused. simpl open. split6.
    + exact Hcl.
    + exact Hheld.
    + exact Hnd.
    + intros Hf. simpl in Hf. discriminate Hf.
    + intros _ i (x & Hx & _). simpl in Hx. congruence.
    + exact Hleak.
Qed.

Lemma owned_new (sz : Z) (op : option Opener) : owned (newHTTPReadSeeker sz op) [].
Proof.
  unfold owned, held. simpl. split6.
  - intros i [].
  - intros i (x & Hx & _). discriminate Hx.
  - constructor.
  - intros _ i (x & Hx & _). discriminate Hx.
  - intros Hf. discriminate Hf.
  - intros i off [].
Qed.

Lemma reader_owned (h h1 : httpReadSeeker) (w w1 : World) (r : Conn + error) :
  closed h = false -> owned h w ->
  reader h w = (h1, w1, r) ->
  owned h1 w1 /\ closed h1 = false.
Proof.
  intros Hc Hown. unfold reader, call_open.
  destruct (rc h) as [c|] eqn:Hr; [intros H; injection H as <- <- <-; auto|].
  destruct ((size h =? -1) || (offset h <? size h)).
  - destruct (open h) as [f|] eqn:Ho; [| intros H; injection H as <- <- <-; auto].
    destruct (f (count_opens w) (offset h)) as [body cerr|e] eqn:Hf;
      intros H; injection H as <- <- <-.
    + split; [| exact Hc]. now apply owned_open_ok.
    + split; [| exact Hc]. now apply (owned_open_err h w f _ e).
  - intros H; injection H as <- <- <-. split; [| exact Hc].
    now apply owned_synthetic.
Qed.

Lemma Read_stages (h h1 : httpReadSeeker) (plen : nat) (w w1 : World)
    (rd rd' : Conn) (d : list byte) (e0 : option error) :
  closed h = false ->
  reader h w = (h1, w1, inl rd) ->
  conn_read rd plen = (d, e0, rd') ->
  exists h3 h4,
    stage_of h1 rd' h3 /\ stage_of h1 rd' h4
    /\ (Read h plen w = (h3, w1, (d, e0))
        \/ Read h plen w =
             (set_rc None h3,
              close_logged "httpReadSeeker: failed to close ReadCloser after io.EOF"
                rd' w1,
              (d, e0))
        \/ Read h plen w = (h4, w1, (d, e0))
        \/ exists h6 w3 r,
             reader (set_rc None h4)
               (close_logged "httpReadSeeker: failed to close ReadCloser" rd' w1)
             = (h6, w3, r)
             /\ Read h plen w =
                  (h6, w3, (d, match r with inl _ => None | inr _ => e0 end))).
Proof.
  intros Hc Hr Hcr.
  pose proof (Read_paths _ _ _ _ _ _ _ _ _ Hc Hr Hcr) as HP. cbv zeta in HP.
  eexists. eexists.
  refine ((fun P => conj (proj1 (proj2 P)) (conj (proj2 (proj2 P)) (proj1 P))) _).
  split.
  - destruct HP as [(_ & _ & HP) | [(_ & HP) | [(_ & _ & _ & HP) | (_ & _ & HP)]]].
    + left. exact HP.
    + right; left. exact HP.
    + right; right; left. exact HP.
    + right; right; right. exact HP.
  - unfold stage_of.
    split;
      repeat match goal with
             | |- context [if ?b then _ else _] => destruct b
             end; simpl; auto.
Qed.

Lemma stage_owned (h1 hx : httpReadSeeker) (w1 : World) (rd rd' : Conn) :
  rc h1 = Some rd -> conn_id rd' = conn_id rd ->
  stage_of h1 rd' hx -> owned h1 w1 -> owned hx w1.
Proof.
  intros Hr Hid (Hrx & Hcx & Hox) Hown.
  apply (owned_held_iff (set_rc (Some rd') h1)); auto.
  - intros i. unfold held. simpl. now rewrite Hrx.
  - now apply (owned_after_read h1 w1 rd).
Qed.

Lemma Read_owned (h h' : httpReadSeeker) (plen : nat) (w w' : World)
    (r : ReadResult) :
  owned h w -> Read h plen w = (h', w', r) -> owned h' w'.
Proof.
  intros Hown HR. destruct (closed h) eqn:Hc.
  { rewrite (Read_closed _ _ _ Hc) in HR. now inversion HR; subst. }
  destruct (reader h w) as [[h1 w1] [rd|er]] eqn:Hr.
  2:{ rewrite (Read_no_reader _ _ _ _ _ _ Hc Hr) in HR. inversion HR; subst.
      now destruct (reader_owned _ _ _ _ _ Hc Hown Hr). }
  destruct (reader_owned _ _ _ _ _ Hc Hown Hr) as (Hown1 & Hc1).
  pose proof (reader_ok_rc _ _ _ _ _ Hr) as Hrc1.
  destruct (conn_read rd plen) as [[d e0] rd'] eqn:Hcr.
  destruct (conn_read_same _ _ _ _ _ Hcr) as (Hid & _).
  destruct (Read_stages _ _ _ _ _ _ _ _ _ Hc Hr Hcr)
    as (h3 & h4 & Hs3 & Hs4 & HP).
  pose proof (stage_owned _ _ _ _ _ Hrc1 Hid Hs3 Hown1) as Hown3.
  pose proof (stage_owned _ _ _ _ _ Hrc1 Hid Hs4 Hown1) as Hown4.
  destruct Hs3 as (Hr3 & Hc3 & _). destruct Hs4 as (Hr4 & Hc4 & _).
  rewrite Hc1 in Hc3, Hc4.
  destruct HP as [HP | [HP | [HP | (h6 & w3 & rr & Hr2 & HP)]]];
    rewrite HP in HR; inversion HR; subst.
  - exact Hown3.
  - now apply owned_release.
  - exact Hown4.
  - eapply reader_owned; [| | exact Hr2]; [exact Hc4 | now apply owned_release].
Qed.

Lemma ReadAt_owned (h h' : httpReadSeeker) (plen : nat) (off : Z)
    (w w' : World) (r : ReadResult) :
  owned h w -> ReadAt h plen off w = Some (h', w', r) -> owned h' w'.
Proof.
  intros Hown. unfold ReadAt, call_open.
  destruct (closed h) eqn:Hc; [intros H; now inversion H; subst|].
  destruct (off <? 0); [intros H; now inversion H; subst|].
  destruct (negb (size h =? -1) && (size h <=? off));
    [intros H; now inversion H; subst|].
  destruct (open h) as [f|] eqn:Ho; [| intros H; now inversion H; subst].
  destruct (f (count_opens w) off) as [body cerr|e] eqn:Hf.
  - destruct (ReadFull_spec plen (mkConn (Opened (count_opens w)) body cerr))
      as (buf & err & c' & HF & _ & Hid & _).
    rewrite HF. intros H; injection H as <- <- <-.
    now apply owned_private.
  - intros H; injection H as <- <- <-. now apply (owned_open_err h w f _ e).
Qed.

Lemma Seek_owned (h h' : httpReadSeeker) (off whence : Z) (w w' : World)
    (r : Z * option error) :
  owned h w -> Seek h off whence w = (h', w', r) -> owned h' w'.
Proof.
  intros Hown. unfold Seek.
  destruct (closed h) eqn:Hc; [intros H; now inversion H; subst|].
  destruct (seek_abs h off whence) as [abs|e]; [| intros H; now inversion H; subst].
  destruct (abs <? 0); [intros H; now inversion H; subst|].
  destruct (negb (abs =? offset h)); [| intros H; now inversion H; subst].
  unfold release. destruct (rc h) as [c|] eqn:Hr; intros H;
    injection H as <- <- <-.
  - apply (owned_held_iff (set_rc None h)); try reflexivity.
    now apply owned_release.
  - apply (owned_held_iff h); try reflexivity. exact Hown.
Qed.

Lemma Close_owned (h h' : httpReadSeeker) (w w' : World) (e : option error) :
  owned h w -> Close h w = (h', w', e) -> owned h' w'.
Proof.
  intros Hown HC.
  destruct (closed h) eqn:Hc.
  - unfold Close in HC. rewrite Hc in HC. now inversion HC; subst.
  - pose proof (owned_Close h w Hc Hown) as H.
    unfold Close in HC. rewrite Hc in HC. simpl in HC.
    destruct (rc h); inversion HC; subst; exact H.
Qed.

Lemma run_owned (ops : list Op) :
  forall (h h' : httpReadSeeker) (w w' : World),
    owned h w -> run ops h w = Some (h', w') -> owned h' w'.
Proof.
  induction ops as [|o ops IH]; intros h h' w w' Hown HR; simpl in HR.
  - now inversion HR; subst.
  - destruct (apply_op o h w) as [[h1 w1]|] eqn:Ha; [| discriminate].
    apply (IH h1 h' w1 w'); [| exact HR].
    destruct o as [plen | plen off | off whence |]; simpl in Ha.
    + destruct (Read h plen w) as [[hx wx] rx] eqn:HX.
      inversion Ha; subst. exact (Read_owned _ _ _ _ _ _ Hown HX).
    + destruct (ReadAt h plen off w) as [[[hx wx] rx]|] eqn:HX; [| discriminate].
      inversion Ha; subst. exact (ReadAt_owned _ _ _ _ _ _ _ Hown HX).
    + destruct (Seek h off whence w) as [[hx wx] rx] eqn:HX.
      inversion Ha; subst. exact (Seek_owned _ _ _ _ _ _ _ Hown HX).
    + destruct (Close h w) as [[hx wx] ex] eqn:HX.
      inversion Ha; subst. exact (Close_owned _ _ _ _ _ Hown HX).
Qed.

(** X12: no connection is closed twice.  Whatever calls are made on a
    reader from [newHTTPReadSeeker], each connection the opener handed out is
    closed at most once, and only after it was opened. *)
Theorem run_never_closes_twice (ops : list Op) (sz : Z) (op : option Opener)
    (h' : httpReadSeeker) (w' : World) :
  run ops (newHTTPReadSeeker sz op) [] = Some (h', w') ->
  NoDup (closes w')
  /\ (forall i, In i (closes w') -> (i < count_opens w')%nat).
Proof.
  intros HR.
  destruct (run_owned ops _ _ _ _ (owned_new sz op) HR)
    as (Hcl & _ & Hnd & _).
  split; assumption.
Qed.

(** X13: no connection leaks.  After any calls on a reader from
    [newHTTPReadSeeker], every call of the opener either was refused or gave
    a connection that is closed by now or is the one the reader holds; so at
    most one connection is left open between calls, and once the reader is
    closed none is. *)
Theorem run_never_leaks (ops : list Op) (sz : Z) (op : option Opener)
    (h' : httpReadSeeker) (w' : World) :
  run ops (newHTTPReadSeeker sz op) [] = Some (h', w') ->
  (forall i off,
      In (EvOpen i off) w' ->
      refused h' i off \/ In i (closes w') \/ held h' i)
  /\ (forall i j offi offj,
        In (EvOpen i offi) w' -> In (EvOpen j offj) w' ->
        ~ refused h' i offi -> ~ refused h' j offj ->
        ~ In i (closes w') -> ~ In j (closes w') -> i = j)
  /\ (closed h' = true ->
      forall i off,
        In (EvOpen i off) w' -> refused h' i off \/ In i (closes w')).
Proof.
  intros HR.
  destruct (run_owned ops _ _ _ _ (owned_new sz op) HR)
    as (_ & _ & _ & _ & Hshut & Hleak).
  split; [exact Hleak | split].
  - intros i j offi offj Hi Hj Hri Hrj Hci Hcj.
    destruct (Hleak i offi Hi) as [? | [? | (ci & Hci' & Hidi)]]; try contradiction.
    destruct (Hleak j offj Hj) as [? | [? | (cj & Hcj' & Hidj)]]; try contradiction.
    congruence.
  - intros Hc i off Hi.
    destruct (Hleak i off Hi) as [? | [? | Hheld]]; auto.
Qed.

Lemma run_never_closes_twice_witness :
  NoDup (closes ex_program_world)
  /\ (forall i, In i (closes ex_program_world)
                -> (i < count_opens ex_program_world)%nat).
Proof.
  assert (HR : run ex_program ex_new [] = Some (ex_program_reader, ex_program_world))
    by (vm_compute; reflexivity).
  exact (run_never_closes_twice ex_program 100 (Some (stream_opener (ramp 100)))
           ex_program_reader ex_program_world HR).
Defined.

Lemma run_never_leaks_witness :
  closed ex_program_reader = true
  /\ forall i off,
       In (EvOpen i off) ex_program_world ->
       refused ex_program_reader i off \/ In i (closes ex_program_world).
Proof.
  assert (HR : run ex_program ex_new [] = Some (ex_program_reader, ex_program_world))
    by (vm_compute; reflexivity).
  assert (Hc : closed ex_program_reader = true) by (vm_compute; reflexivity).
  destruct (run_never_leaks ex_program 100 (Some (stream_opener (ramp 100)))
              ex_program_reader ex_program_world HR) as (_ & _ & Hshut).
  split; [exact Hc | exact (Hshut Hc)].
Defined.

(** ** The stall counter across a seek *)

(** X14: [Seek] never touches the stall counter, whatever the reader, the
    anchor and the position, whether the call fails, stays or moves: the
    retry budget belongs to the reader, not to the offset.  So with the
    counter at [maxRetry], a seek to another position followed by a [Read]
    whose fresh connection stalls returns the truncation error at that
    first stall, and the stalled connection stays held, unclosed. *)
Theorem Seek_keeps_stall_counter :
  (forall (h : httpReadSeeker) (off whence : Z) (w : World),
      errsWithNoProgress (fst (fst (Seek h off whence w))) = errsWithNoProgress h)
  /\ (forall (h : httpReadSeeker) (o : Z) (plen : nat) (w : World) (f : Opener)
             (rest : list Response) (cerr : option error),
        closed h = false -> open h = Some f ->
        errsWithNoProgress h = maxRetry ->
        0 <= o -> (size h = -1 \/ o < size h) -> o <> offset h ->
        f (count_opens w) o = OpenOk (stalls 1 rest) cerr ->
        exists h1 w1 h2,
          Seek h o SeekStart w = (h1, w1, (o, None))
          /\ errsWithNoProgress h1 = maxRetry
          /\ Read h1 plen w1 =
               (h2, w1 ++ [EvOpen (count_opens w) o], ([], Some ErrUnexpectedEOF))
          /\ rc h2 = Some (mkConn (Opened (count_opens w)) rest cerr)
          /\ errsWithNoProgress h2 = maxRetry + 1).
Proof.
  split.
  { intros h off whence w.
    destruct (Seek h off whence w) as [[h' w'] r] eqn:HS.
    now destruct (Seek_frame _ _ _ _ _ _ _ HS) as (_ & _ & _ & He & _). }
  intros h o plen w f rest cerr Hc Ho He Hp Hs Hne Hf.
  destruct (Seek_at h o SeekStart w o Hc eq_refl) as (_ & _ & Hmove).
  specialize (Hmove Hp Hne).
  set (w1 := match rc h with
             | Some c => close_logged "Fetcher.Seek: failed to close ReadCloser" c w
             | None => w
             end) in *.
  set (h1 := set_offset o (set_rc None h)) in *.
  assert (Hcnt : count_opens w1 = count_opens w).
  { unfold w1. destruct (rc h); [apply count_opens_close_logged | reflexivity]. }
  assert (Hrd : reader h1 w1 =
                (set_rc (Some (mkConn (Opened (count_opens w)) (stalls 1 rest) cerr)) h1,
                 w1 ++ [EvOpen (count_opens w) o],
                 inl (mkConn (Opened (count_opens w)) (stalls 1 rest) cerr))).
  { rewrite (reader_opens h1 w1 f); try reflexivity; try assumption.
    rewrite Hcnt. simpl offset. now rewrite Hf. }
  exists h1, w1. eexists. split; [exact Hmove | split; [exact He |]].
  rewrite (Read_after_reader h1 _ plen w1 _ _ Hc Hrd).
  assert (Hadd : add64 maxRetry 1 = maxRetry + 1) by reflexivity.
  erewrite Read_gives_up; try reflexivity.
  - unfold h1. simpl. rewrite He, Hadd.
    split; [reflexivity | split; reflexivity].
  - unfold h1. simpl. exact Hc.
  - unfold h1. simpl. rewrite He, Hadd. unfold maxRetry. lia.
Qed.

Lemma Seek_keeps_stall_counter_witness :
  (errsWithNoProgress ex_stuck = 4
   /\ errsWithNoProgress (fst (fst (Seek ex_stuck 2 SeekStart []))) = 4
   /\ errsWithNoProgress (fst (fst (Seek ex_worn 1 SeekCurrent []))) = 3
   /\ errsWithNoProgress (fst (fst (Seek ex_absorbed 0 SeekEnd ex_absorbed_world))) = 1)
  /\ exists h1 w1 h2,
       Seek ex_worn 4 SeekStart [] = (h1, w1, (4, None))
       /\ errsWithNoProgress h1 = maxRetry
       /\ Read h1 8 w1 = (h2, w1 ++ [EvOpen 0 4], ([], Some ErrUnexpectedEOF))
       /\ rc h2 = Some (mkConn (Opened 0) [] None)
       /\ errsWithNoProgress h2 = maxRetry + 1.
Proof.
  destruct Seek_keeps_stall_counter as (Hkeep & Hthen).
  split.
  - split; [reflexivity |].
    split; [exact (Hkeep ex_stuck 2 SeekStart []) |].
    split; [exact (Hkeep ex_worn 1 SeekCurrent []) |].
    exact (Hkeep ex_absorbed 0 SeekEnd ex_absorbed_world).
  - apply (Hthen ex_worn 4 8%nat []
             (fun i off => if (i <? 5)%nat then OpenOk (stalls 1 []) None
                           else OpenOk (body_from (ramp 9) off) None) [] None);
      try reflexivity.
    + lia.
    + left; reflexivity.
    + discriminate.
Defined.

(** ** Resuming a body that breaks off *)

Section Resume.

Variables (plen : nat) (f : Opener).
Hypothesis plen_pos : (0 < plen)%nat.


End Resume.



(** ** Reading to the end after a seek *)

(** X16: a seek followed by reading to the end yields the stream from
    the new position.  On an open reader, after [Seek(o, start)] to a valid
    position that is not where a held connection already stands, a caller
    that keeps reading gets exactly what the connection the opener makes at
    [o] delivers, then a clean end-of-stream, for one call of the opener. *)
Theorem Seek_then_read_all (h : httpReadSeeker) (o : Z) (plen : nat) (w : World)
    (f : Opener) (chunks : list (list byte)) (cerr : option error) :
  closed h = false -> open h = Some f ->
  0 <= o -> (size h = -1 \/ o < size h) ->
  (rc h = None \/ o <> offset h) ->
  f (count_opens w) o = OpenOk (clean chunks) cerr ->
  (0 < plen)%nat ->
  exists h1 w1 h' w',
    Seek h o SeekStart w = (h1, w1, (o, None))
    /\ read_all (S (S (drain_cost chunks))) h1 plen w1 []
       = Some (h', w', (concat chunks, EOF))
    /\ count_opens w' = S (count_opens w)
    /\ rc h' = None.
Proof.
  intros Hc Ho Hp Hs Hpos Hf Hplen.
  assert (HS : exists h1 w1,
             Seek h o SeekStart w = (h1, w1, (o, None))
             /\ closed h1 = false /\ rc h1 = None /\ open h1 = Some f
             /\ size h1 = size h /\ offset h1 = o
             /\ count_opens w1 = count_opens w).
  { destruct (Seek_at h o SeekStart w o Hc eq_refl) as (_ & Hsame & Hmove).
    destruct (Z.eq_dec o (offset h)) as [Heq | Hne].
    - destruct Hpos as [Hr | Hne]; [| contradiction].
      exists h, w. rewrite (Hsame Hp Heq). auto 10.
    - eexists. eexists. rewrite (Hmove Hp Hne). simpl.
      repeat split; auto.
      destruct (rc h); [apply count_opens_close_logged | reflexivity]. }
  destruct HS as (h1 & w1 & HSeek & Hc1 & Hr1 & Ho1 & Hsz1 & Hoff1 & Hcnt).
  assert (Hs1 : size h1 = -1 \/ offset h1 < size h1)
    by (rewrite Hsz1, Hoff1; exact Hs).
  pose proof (reader_opens h1 w1 f Hr1 Ho1 Hs1) as Hrd.
  rewrite Hcnt, Hoff1, Hf in Hrd. cbv zeta in Hrd.
  destruct (read_all_clean plen Hplen (S (S (drain_cost chunks))) chunks
              (set_rc (Some (mkConn (Opened (count_opens w)) (clean chunks) cerr)) h1)
              (w1 ++ [EvOpen (count_opens w) o]) []
              (mkConn (Opened (count_opens w)) (clean chunks) cerr))
    as (h' & HA & Hrc); try reflexivity; try lia.
  { exact Hc1. }
  exists h1, w1, h'. eexists.
  split; [exact HSeek | split; [| split; [| exact Hrc]]].
  - rewrite (read_all_after_reader _ _ _ _ _ _ _ _ Hc1 Hrd). exact HA.
  - now rewrite count_opens_close_logged, count_opens_snoc_open, Hcnt.
Qed.

Lemma Seek_then_read_all_witness :
  exists h1 w1 h' w',
    Seek ex_held 93 SeekStart ex_held_world = (h1, w1, (93, None))
    /\ read_all 10 h1 3 w1 [] = Some (h', w', (map byte_of (seq 93 7), EOF))
    /\ count_opens w' = 2%nat
    /\ rc h' = None.
Proof.
  apply (Seek_then_read_all ex_held 93 3 ex_held_world
           (stream_opener (ramp 100)) (chunks_from (ramp 100) 93) None);
    try reflexivity.
  - lia.
  - right; reflexivity.
  - right; discriminate.
  - lia.
Defined.
